(** * gopter: generators and generation parameters

    A shallow embedding of [gen_parameters.go] and of the generator
    combinators ([Gen.WithLabel], [Gen.SuchThat], [Gen.WithShrinker],
    [Gen.Map], [Gen.FlatMap], [CombineGens]), with the properties of the
    natural-language specification stated and proved against it.

    Go objects reached through pointers ([*GenParameters], [*GenResult],
    [*rand.Rand]) and the backing arrays of label slices live in an explicit
    store, so that in-place updates and aliasing are visible.  A Go panic is
    an outcome of its own, distinct from a generation failure (a result
    without a value). *)

From Stdlib Require Import ZArith String List Lia Bool.
From stdpp Require Import base list.
Import ListNotations.
Set Warnings "-register-all".
Open Scope string_scope.
Open Scope list_scope.
Open Scope Z_scope.

(** ** Values and run-time types *)

(** The part of [reflect.Type] the combinators look at. *)
Inductive rtype : Type :=
| TInt
| TInt64
| TBool
| TString
| TInterface                      (* interface{} *)
| TSlice (elem : rtype)
| TFunc (ins outs : list rtype).

Inductive Kind : Type :=
| KInt | KInt64 | KBool | KString | KInterface | KSlice | KFunc.

Definition kind_of (t : rtype) : Kind :=
  match t with
  | TInt => KInt
  | TInt64 => KInt64
  | TBool => KBool
  | TString => KString
  | TInterface => KInterface
  | TSlice _ => KSlice
  | TFunc _ _ => KFunc
  end.

Definition Kind_eqb (a b : Kind) : bool :=
  match a, b with
  | KInt, KInt | KInt64, KInt64 | KBool, KBool | KString, KString
  | KInterface, KInterface | KSlice, KSlice | KFunc, KFunc => true
  | _, _ => false
  end.

Fixpoint rtype_eqb (a b : rtype) {struct a} : bool :=
  let fix all2 (xs ys : list rtype) {struct xs} : bool :=
    match xs, ys with
    | [], [] => true
    | x :: xs', y :: ys' => rtype_eqb x y && all2 xs' ys'
    | _, _ => false
    end in
  match a, b with
  | TInt, TInt | TInt64, TInt64 | TBool, TBool | TString, TString
  | TInterface, TInterface => true
  | TSlice x, TSlice y => rtype_eqb x y
  | TFunc i1 o1, TFunc i2 o2 => all2 i1 i2 && all2 o1 o2
  | _, _ => false
  end.

(** [reflect.Type.AssignableTo] on these types: identical types, or the
    target is the empty interface, which every type implements. *)
Definition AssignableTo (t u : rtype) : bool :=
  rtype_eqb t u || match u with TInterface => true | _ => false end.

(** A value held in an [interface{}].  [VNil] is the nil interface; a
    [VSlice] is a [[]interface{}]. *)
Inductive iface : Type :=
| VNil
| VInt (z : Z)
| VInt64 (z : Z)
| VBool (b : bool)
| VString (s : string)
| VSlice (vs : list iface).

Definition is_nil (v : iface) : bool :=
  match v with VNil => true | _ => false end.

(** [reflect.TypeOf]; nil for the nil interface. *)
Definition TypeOf (v : iface) : option rtype :=
  match v with
  | VNil => None
  | VInt _ => Some TInt
  | VInt64 _ => Some TInt64
  | VBool _ => Some TBool
  | VString _ => Some TString
  | VSlice _ => Some (TSlice TInterface)
  end.

(** ** Panics in pure code *)

(** The outcome of code that touches no stored object: a value or a panic.
    Panic messages keep the fixed text of the source's format string. *)
Inductive res (A : Type) : Type :=
| Val (a : A)
| Err (msg : string).
Arguments Val {A} a.
Arguments Err {A} msg.

Definition res_bind {A B} (m : res A) (k : A -> res B) : res B :=
  match m with
  | Val a => k a
  | Err msg => Err msg
  end.

(** A Go function value as reflection sees it: its parameter and result
    types and what a call computes. *)
Record Func : Type := mkFunc {
  In : list rtype;
  Out : list rtype;
  body : list iface -> res (list iface)
}.

(** What can be passed where the source takes [f interface{}]: the nil
    interface, a plain value, or a function. *)
Inductive any : Type :=
| Data (v : iface)
| Fn (f : Func).

(** [reflect.Value.Call]: the argument count has to match, no argument may
    be the zero Value (which [reflect.ValueOf(nil)] is), and each argument's
    type has to be assignable to the parameter's. *)
Fixpoint args_assignable (args : list iface) (ins : list rtype) : bool :=
  match args, ins with
  | [], [] => true
  | a :: args', t :: ins' =>
      match TypeOf a with
      | Some ta => AssignableTo ta t && args_assignable args' ins'
      | None => false
      end
  | _, _ => false
  end.

Definition Call (f : Func) (args : list iface) : res (list iface) :=
  if negb (Nat.eqb (length args) (length (In f))) then
    Err "reflect: Call with wrong number of input arguments"
  else if negb (args_assignable args (In f)) then
    Err "reflect: Call using argument of wrong type"
  else body f args.

(** ** Shrinkers *)

(** Modelled from the spec: [Shrink], [Shrinker], [NoShrinker] and
    [CombineShrinker] are declared in a file of the repository that is not
    among the sources.  Section 3 of the specification describes a shrinker
    as a pure function from a value to a finite sequence of simpler
    candidates; a [Shrinker] is a Go function value and can be nil. *)
Definition Shrink : Type := list iface.
Definition Shrinker : Type := option (iface -> Shrink).

(** Modelled from the spec: the canonical no-op shrinker "yields an empty
    sequence for any input" (section 4.3). *)
Definition NoShrink : Shrink := [].
Definition NoShrinker : Shrinker := Some (fun _ => NoShrink).

(** Modelled from the spec (section 4.3): for every position that has a
    shrinker, the candidates keep all other positions and substitute each
    simplified value at that position; position 0's candidates come first. *)
Fixpoint CombineShrinker_from (i : nat) (shrinkers : list Shrinker)
    (values : list iface) : list iface :=
  match shrinkers with
  | [] => []
  | s :: rest =>
      match s, values !! i with
      | Some shrink, Some x =>
          map (fun x' => VSlice (<[i := x']> values)) (shrink x)
      | _, _ => []
      end ++ CombineShrinker_from (S i) rest values
  end.

Definition CombineShrinker (shrinkers : list Shrinker) : Shrinker :=
  Some (fun v =>
          match v with
          | VSlice values => CombineShrinker_from 0 shrinkers values
          | _ => NoShrink
          end).

(** ** Stored objects *)

(** A pointer: nil, or the address of an object in the store of its type. *)
Definition ptr : Type := option nat.

(** A Go slice of strings, as the slice header has it: the backing array
    and the position of the slice's first element in it, the length and the
    capacity.  Copying the header (as [Labels: result.Labels] does) shares
    the backing array. *)
Record Slice : Type := mkSlice {
  array : ptr;
  offset : nat;
  len : nat;
  cap : nat
}.

(** Modelled from the spec: the declaration of [GenResult] is not among the
    sources.  Its fields are the ones the combinators read and write
    ([Labels], [Shrinker], [ResultType], [result], [Sieve]), with the types of
    section 3 of the specification; [Labels] is a [[]string] (the combinators
    [append] to it), [Sieve] and [Shrinker] are Go function values and can be
    nil, [ResultType] is a [reflect.Type] and can be nil. *)
Module GenResult.
Record t : Type := mk {
  Labels : Slice;
  Shrinker : Shrinker;
  ResultType : option rtype;
  result : iface;
  Sieve : option (iface -> res bool)
}.

Definition with_Labels (l : Slice) (r : t) : t :=
  mk l (Shrinker r) (ResultType r) (result r) (Sieve r).
Definition with_Shrinker (s : option (iface -> Shrink)) (r : t) : t :=
  mk (Labels r) s (ResultType r) (result r) (Sieve r).
Definition with_Sieve (s : option (iface -> res bool)) (r : t) : t :=
  mk (Labels r) (Shrinker r) (ResultType r) (result r) s.
End GenResult.

(** [rand.Rand] belongs to the Go library.  A source is modelled by the
    sequence of 64-bit words it is going to produce and a cursor into it. *)
Record Rand : Type := mkRand {
  words : nat -> Z;
  cursor : nat
}.

(** GenParameters encapsulates the parameters for all generators. *)
Record GenParameters : Type := mkGenParameters {
  Size : Z;
  MaxShrinkCount : Z;
  Rng : ptr
}.

(** The state a generator runs in: the stores of result objects, of the
    backing arrays of label slices, of parameters objects and of random
    sources (an address is an index), and what the environment supplies: to
    [DefaultGenParameters] the readings of [time.Now().UnixNano()], how many
    were taken, and the word sequence [rand.NewSource] derives from a seed;
    to [append] the capacity the runtime proposes for a slice that has to
    grow (from the old capacity and the length needed). *)
Record World : Type := mkWorld {
  results : list GenResult.t;
  arrays : list (list string);
  parameters : list GenParameters;
  rands : list Rand;
  UnixNano : nat -> Z;
  readings : nat;
  NewSource : Z -> nat -> Z;
  growslice : nat -> nat -> nat
}.

Definition set_results (h : list GenResult.t) (w : World) : World :=
  mkWorld h (arrays w) (parameters w) (rands w) (UnixNano w) (readings w)
          (NewSource w) (growslice w).
Definition set_arrays (h : list (list string)) (w : World) : World :=
  mkWorld (results w) h (parameters w) (rands w) (UnixNano w) (readings w)
          (NewSource w) (growslice w).
Definition set_parameters (h : list GenParameters) (w : World) : World :=
  mkWorld (results w) (arrays w) h (rands w) (UnixNano w) (readings w)
          (NewSource w) (growslice w).
Definition set_rands (h : list Rand) (w : World) : World :=
  mkWorld (results w) (arrays w) (parameters w) h (UnixNano w) (readings w)
          (NewSource w) (growslice w).
Definition set_readings (n : nat) (w : World) : World :=
  mkWorld (results w) (arrays w) (parameters w) (rands w) (UnixNano w) n
          (NewSource w) (growslice w).

(** ** The monad of stateful code that can panic *)

(** Both outcomes carry the state reached: what was written before a panic
    stays written. *)
Inductive outcome (A : Type) : Type :=
| Ok (a : A) (w : World)
| Panic (msg : string) (w : World).
Arguments Ok {A} a w.
Arguments Panic {A} msg w.

Definition M (A : Type) : Type := World -> outcome A.

Definition ret {A} (a : A) : M A := fun w => Ok a w.

Definition bind {A B} (m : M A) (k : A -> M B) : M B :=
  fun w =>
    match m w with
    | Ok a w' => k a w'
    | Panic msg w' => Panic msg w'
    end.

Definition panic {A} (msg : string) : M A := fun w => Panic msg w.

Definition lift {A} (r : res A) : M A :=
  match r with
  | Val a => ret a
  | Err msg => panic msg
  end.

Declare Scope go_scope.
Delimit Scope go_scope with go.
Notation "x <- m ;; k" := (bind m (fun x => k))
  (at level 100, m at next level, right associativity) : go_scope.
Notation "m ;;; k" := (bind m (fun _ => k))
  (at level 100, right associativity) : go_scope.
Open Scope go_scope.

Definition nil_dereference : string :=
  "runtime error: invalid memory address or nil pointer dereference".

(** Reading and writing through a pointer, and allocation ([&T{...}]). *)
Definition load_result (p : ptr) : M GenResult.t := fun w =>
  match p with
  | Some a =>
      match results w !! a with
      | Some r => Ok r w
      | None => Panic nil_dereference w
      end
  | None => Panic nil_dereference w
  end.

Definition store_result (p : ptr) (r : GenResult.t) : M unit := fun w =>
  match p with
  | Some a =>
      match results w !! a with
      | Some _ => Ok tt (set_results (<[a := r]> (results w)) w)
      | None => Panic nil_dereference w
      end
  | None => Panic nil_dereference w
  end.

Definition new_result (r : GenResult.t) : M ptr := fun w =>
  Ok (Some (length (results w))) (set_results (results w ++ [r]) w).

Definition load_parameters (p : ptr) : M GenParameters := fun w =>
  match p with
  | Some a =>
      match parameters w !! a with
      | Some r => Ok r w
      | None => Panic nil_dereference w
      end
  | None => Panic nil_dereference w
  end.

Definition new_parameters (r : GenParameters) : M ptr := fun w =>
  Ok (Some (length (parameters w))) (set_parameters (parameters w ++ [r]) w).

Definition new_rand (r : Rand) : M ptr := fun w =>
  Ok (Some (length (rands w))) (set_rands (rands w ++ [r]) w).

(** ** Slices of strings *)

(** The elements of a slice: [len] cells of its backing array, from
    [offset] on. *)
Definition elements (w : World) (s : Slice) : list string :=
  match array s with
  | Some k =>
      match arrays w !! k with
      | Some arr => take (len s) (drop (offset s) arr)
      | None => []
      end
  | None => []
  end.

Definition read_slice (s : Slice) : M (list string) := fun w =>
  Ok (elements w s) w.

(** A slice literal [[]string{...}]: a new backing array of exactly these
    elements. *)
Definition new_slice (xs : list string) : M Slice := fun w =>
  Ok (mkSlice (Some (length (arrays w))) 0 (length xs) (length xs))
     (set_arrays (arrays w ++ [xs]) w).

(** The capacity of a slice of capacity [old] after it has been appended to
    up to length [n]: unchanged when [n] fits, otherwise what the runtime
    proposes, and at least [n]. *)
Definition grown (w : World) (old n : nat) : nat :=
  if (n <=? old)%nat then old else Nat.max n (growslice w old n).

(** [append(s, x)].  When the slice has spare capacity the element is
    written into its backing array, in the cell after its last element, and
    the slice returned is one longer on the same array: every slice that
    shares the array and reaches that cell sees the write.  Otherwise a new
    array is allocated, the elements are copied to it and [x] is written
    after them; the cells up to the new capacity hold the zero value.
    [append] does not panic.  Go keeps the capacity of every slice within
    an existing array; for a header that is not so, nothing is written. *)
Definition append (s : Slice) (x : string) : M Slice := fun w =>
  if (len s <? cap s)%nat then
    Ok (mkSlice (array s) (offset s) (S (len s)) (cap s))
       match array s with
       | Some k =>
           match arrays w !! k with
           | Some arr =>
               set_arrays
                 (<[k := <[(offset s + len s)%nat := x]> arr]> (arrays w)) w
           | None => w
           end
       | None => w
       end
  else
    let n := S (len s) in
    let c := grown w (cap s) n in
    Ok (mkSlice (Some (length (arrays w))) 0 n c)
       (set_arrays
          (arrays w ++ [elements w s ++ x :: replicate (c - n) EmptyString]) w).

(** ** gen_parameters.go *)

(** [int64(x)] and [uint64(x)]: the value wrapped into the 64-bit range. *)
Definition int64 (z : Z) : Z := (z + 2 ^ 63) mod 2 ^ 64 - 2 ^ 63.
Definition uint64 (z : Z) : Z := z mod 2 ^ 64.

Definition MaxInt64 : Z := 2 ^ 63 - 1.
Definition MinInt64 : Z := - 2 ^ 63.

(** [Int63] of [rand.Rand]: "a non-negative pseudo-random 63-bit integer";
    the library masks the source's next word with [1<<63 - 1]. *)
Definition Int63 (rng : ptr) : M Z := fun w =>
  match rng with
  | Some a =>
      match rands w !! a with
      | Some r =>
          Ok (Z.land (words r (cursor r)) (2 ^ 63 - 1))
             (set_rands (<[a := mkRand (words r) (S (cursor r))]> (rands w)) w)
      | None => Panic nil_dereference w
      end
  | None => Panic nil_dereference w
  end.

(** WithSize modifies the size parameter: a copy, the receiver is not
    written. *)
Definition WithSize (p : ptr) (size : Z) : M ptr :=
  newParameters <- load_parameters p ;;
  new_parameters
    (mkGenParameters size (MaxShrinkCount newParameters) (Rng newParameters)).

(** NextBool create a random boolean using the underlying Rng. *)
Definition NextBool (p : ptr) : M bool :=
  gp <- load_parameters p ;;
  v <- Int63 (Rng gp) ;;
  ret (Z.land v 1 =? 0).

(** NextInt64 create a random int64 using the underlying Rng. *)
Definition NextInt64 (p : ptr) : M Z :=
  gp <- load_parameters p ;;
  v <- Int63 (Rng gp) ;;
  b <- NextBool p ;;
  if b then ret (int64 (- v)) else ret v.

(** NextUint64 create a random uint64 using the underlying Rng. *)
Definition NextUint64 (p : ptr) : M Z :=
  gp <- load_parameters p ;;
  first <- Int63 (Rng gp) ;;
  second <- Int63 (Rng gp) ;;
  ret (Z.lxor (uint64 (Z.shiftl (uint64 first) 1)) (uint64 second)).

(** DefaultGenParameters creates default GenParameters: a fresh source
    seeded from the clock. *)
Definition DefaultGenParameters : M ptr := fun w =>
  let seed := UnixNano w (readings w) in
  (rng <- new_rand (mkRand (NewSource w seed) 0) ;;
   new_parameters (mkGenParameters 100 1000 rng))
    (set_readings (S (readings w)) w).

(** ** Retrieving the value of a result *)

(** Modelled from the spec: [GenResult.Retrieve] is not among the sources.
    The value is retrieved "by checking the sieve": an absent value is a
    generation failure, an absent sieve means "always accepted", and a value
    the sieve rejects is treated as a failed generation (sections 2 and 3,
    glossary).  On failure the value returned is nil. *)
Definition Retrieve (r : GenResult.t) : res (iface * bool) :=
  if is_nil (GenResult.result r) then Val (VNil, false)
  else
    match GenResult.Sieve r with
    | None => Val (GenResult.result r, true)
    | Some sieve =>
        res_bind (sieve (GenResult.result r)) (fun accepted =>
          if accepted then Val (GenResult.result r, true)
          else Val (VNil, false))
    end.

(** Modelled from the spec: [GenResult.RetrieveAsValue] is not among the
    sources; it is [Retrieve] with the value handed over as a
    [reflect.Value], which is modelled by the value itself. *)
Definition RetrieveAsValue (r : GenResult.t) : res (iface * bool) :=
  Retrieve r.

(** ** Generators *)

(** Gen generator of arbitrary values: a function from a pointer to the
    parameters to a pointer to the result. *)
Definition Gen : Type := ptr -> M ptr.

(** Sample generate a sample value. *)
Definition Sample (g : Gen) : M (iface * bool) :=
  genParams <- DefaultGenParameters ;;
  result <- g genParams ;;
  r <- load_result result ;;
  lift (Retrieve r).

(** WithLabel adds a label to a generated value. *)
Definition WithLabel (g : Gen) (label : string) : Gen :=
  fun genParams =>
    result <- g genParams ;;
    r <- load_result result ;;
    labels' <- append (GenResult.Labels r) label ;;
    store_result result (GenResult.with_Labels labels' r) ;;;
    ret result.

(** The sieve [SuchThat] builds from its argument: the function is called
    through reflection and the first result read as a bool. *)
Definition reflect_sieve (checkVal : Func) : iface -> res bool :=
  fun v =>
    res_bind (Call checkVal [v]) (fun outs =>
      match outs with
      | VBool b :: _ => Val b
      | _ :: _ => Err "reflect: call of reflect.Value.Bool on non-bool Value"
      | [] => Err "runtime error: index out of range"
      end).

(** [prevSieve(value) && sieve(value)] *)
Definition and_sieve (prevSieve sieve : iface -> res bool)
  : iface -> res bool :=
  fun value =>
    res_bind (prevSieve value) (fun accepted =>
      if accepted then sieve value else Val false).

(** The generator [SuchThat] returns once its argument has been checked. *)
Definition SuchThat_gen (g : Gen) (sieve : iface -> res bool) : Gen :=
  fun genParams =>
    result <- g genParams ;;
    r <- load_result result ;;
    let prevSieve := GenResult.Sieve r in
    match prevSieve with
    | None => store_result result (GenResult.with_Sieve (Some sieve) r)
    | Some prev =>
        store_result result
          (GenResult.with_Sieve (Some (and_sieve prev sieve)) r)
    end ;;;
    ret result.

(** The probe both [SuchThat] and [Map] make:
    [g(DefaultGenParameters()).ResultType]. *)
Definition probe_ResultType (g : Gen) : M (option rtype) :=
  genParams <- DefaultGenParameters ;;
  result <- g genParams ;;
  r <- load_result result ;;
  ret (GenResult.ResultType r).

(** SuchThat creates a derived generator by adding a sieve.
    f: has to be a function with one parameter (matching the generated
    value) returning a bool. *)
Definition SuchThat (g : Gen) (f : any) : M Gen :=
  match f with
  | Data VNil => panic "reflect: call of reflect.Value.Type on zero Value"
  | Data _ => panic "Param of SuchThat has to be a func"
  | Fn checkVal =>
      match In checkVal with
      | [in0] =>
          genResultType <- probe_ResultType g ;;
          match genResultType with
          | None => panic nil_dereference
          | Some t =>
              if negb (AssignableTo t in0) then
                panic "Param of SuchThat has to be a func with one param assignable to the result type"
              else
                match Out checkVal with
                | [out0] =>
                    if negb (Kind_eqb (kind_of out0) KBool) then
                      panic "Param of SuchThat has to be a func with one return value of bool"
                    else ret (SuchThat_gen g (reflect_sieve checkVal))
                | _ =>
                    panic "Param of SuchThat has to be a func with one return value"
                end
          end
      | _ => panic "Param of SuchThat has to be a func with one param"
      end
  end.

(** WithShrinker creates a derived generator with a specific shrinker *)
Definition WithShrinker (g : Gen) (shrinker : Shrinker) : Gen :=
  fun genParams =>
    result <- g genParams ;;
    r <- load_result result ;;
    match shrinker with
    | None => store_result result (GenResult.with_Shrinker NoShrinker r)
    | Some _ => store_result result (GenResult.with_Shrinker shrinker r)
    end ;;;
    ret result.

(** The generator [Map] returns once its argument has been checked;
    [out0] is [mapperType.Out(0)]. *)
Definition Map_gen (g : Gen) (mapperVal : Func) (out0 : rtype) : Gen :=
  fun genParams =>
    result <- g genParams ;;
    r <- load_result result ;;
    retrieved <- lift (RetrieveAsValue r) ;;
    let '(value, ok) := retrieved in
    if ok : bool then
      outs <- lift (Call mapperVal [value]) ;;
      match outs with
      | mapped :: _ =>
          new_result
            (GenResult.mk (GenResult.Labels r) NoShrinker (Some out0)
                          mapped None)
      | [] => panic "runtime error: index out of range"
      end
    else
      new_result
        (GenResult.mk (GenResult.Labels r) NoShrinker (Some out0) VNil None).

(** Map creates a derived generators by mapping all generatored values with
    a given function.
    f: has to be a function with one parameter (matching the generated
    value) and a single return. *)
Definition Map (g : Gen) (f : any) : M Gen :=
  match f with
  | Data VNil => panic "reflect: call of reflect.Value.Type on zero Value"
  | Data _ => panic "Param of Map has to be a func"
  | Fn mapperVal =>
      match In mapperVal with
      | [in0] =>
          genResultType <- probe_ResultType g ;;
          match genResultType with
          | None => panic nil_dereference
          | Some t =>
              if negb (AssignableTo t in0) then
                panic "Param of Map has to be a func with one param assignable to the result type"
              else
                match Out mapperVal with
                | [out0] => ret (Map_gen g mapperVal out0)
                | _ =>
                    panic "Param of Map has to be a func with one return value"
                end
          end
      | _ => panic "Param of Map has to be a func with one param"
      end
  end.

(** FlatMap creates a derived generator by passing a generated value to a
    function which itself creates a generator.  The continuation is a Go
    function from a value to a generator; the generator it returns is
    invoked at once, so whatever the continuation itself does is part of
    that generator's run. *)
Definition FlatMap (g : Gen) (f : iface -> Gen) (resultType : option rtype)
  : Gen :=
  fun genParams =>
    result <- g genParams ;;
    r <- load_result result ;;
    retrieved <- lift (Retrieve r) ;;
    let '(value, ok) := retrieved in
    if ok : bool then f value genParams
    else
      new_result
        (GenResult.mk (GenResult.Labels r) NoShrinker resultType VNil None).

(** The local slices of [CombineGens].  [labels] starts as the empty literal
    and only grows by [append(labels, result.Labels...)], which copies the
    elements of [result.Labels]: its backing array is reachable from nowhere
    else before the slice is stored in the combined result.  The local is
    therefore kept as its elements and its capacity, and its array enters
    the store when the combined result is constructed. *)
Record combine_locals : Type := mkLocals {
  labels : list string;
  labels_cap : nat;
  values : list iface;
  shrinkers : list Shrinker;
  sieves : list (option (iface -> res bool))
}.

(** The sieve of a combined result: [v.([]interface{})], then every value
    against the sieve at its index. *)
Fixpoint CombineGens_sieve_loop (sieves : list (option (iface -> res bool)))
    (i : nat) (values : list iface) : res bool :=
  match values with
  | [] => Val true
  | value :: rest =>
      match sieves !! i with
      | None => Err "runtime error: index out of range"
      | Some None => CombineGens_sieve_loop sieves (S i) rest
      | Some (Some sieve) =>
          res_bind (sieve value) (fun accepted =>
            if negb accepted then Val false
            else CombineGens_sieve_loop sieves (S i) rest)
      end
  end.

Definition CombineGens_sieve (sieves : list (option (iface -> res bool)))
  : iface -> res bool :=
  fun v =>
    match v with
    | VSlice values => CombineGens_sieve_loop sieves 0 values
    | _ => Err "interface conversion: interface {} is not []interface {}"
    end.

(** [labels = append(labels, s...)] on the local: the elements of [s] as
    they are now, and the capacity grown as [append] grows it. *)
Definition append_labels (st_labels : list string) (st_cap : nat)
    (s : Slice) : M (list string * nat) := fun w =>
  let labels' := st_labels ++ elements w s in
  Ok (labels', grown w st_cap (length labels')) w.

(** The local [labels] stored in a result: its backing array, with the
    cells between length and capacity holding the zero value. *)
Definition escape_labels (st_labels : list string) (st_cap : nat)
  : M Slice := fun w =>
  Ok (mkSlice (Some (length (arrays w))) 0 (length st_labels) st_cap)
     (set_arrays
        (arrays w ++
           [st_labels ++ replicate (st_cap - length st_labels) EmptyString]) w).

(** The loop of [CombineGens] from index [i] on: [inl] is the early return
    of the failure result, [inr] the locals after the last generator. *)
Fixpoint CombineGens_loop (genParams : ptr) (i : nat) (gens : list Gen)
    (st : combine_locals) : M (ptr + combine_locals) :=
  match gens with
  | [] => ret (inr st)
  | gen :: rest =>
      result <- gen genParams ;;
      r <- load_result result ;;
      appended <- append_labels (labels st) (labels_cap st)
                    (GenResult.Labels r) ;;
      let '(labels', cap') := appended in
      let shrinkers' := <[i := GenResult.Shrinker r]> (shrinkers st) in
      let sieves' := <[i := GenResult.Sieve r]> (sieves st) in
      retrieved <- lift (Retrieve r) ;;
      let '(value, ok) := retrieved in
      let values' := <[i := value]> (values st) in
      if negb ok then
        failed <- new_result
                    (GenResult.mk (GenResult.Labels r) NoShrinker
                                  (TypeOf (VSlice values')) VNil None) ;;
        ret (inl failed)
      else
        CombineGens_loop genParams (S i) rest
          (mkLocals labels' cap' values' shrinkers' sieves')
  end.

(** CombineGens creates a generators from a list of generators.
    The result type will be a []interface{} containing the generated values
    of each generators in the list. *)
Definition CombineGens (gens : list Gen) : Gen :=
  fun genParams =>
    let n := length gens in
    done <- CombineGens_loop genParams 0 gens
              (mkLocals [] 0 (replicate n VNil) (replicate n None)
                        (replicate n None)) ;;
    match done with
    | inl failed => ret failed
    | inr st =>
        labels_slice <- escape_labels (labels st) (labels_cap st) ;;
        new_result
          (GenResult.mk labels_slice (CombineShrinker (shrinkers st))
                        (TypeOf (VSlice (values st))) (VSlice (values st))
                        (Some (CombineGens_sieve (sieves st))))
    end.

(** ** Fixtures: worlds and base generators to run the combinators on *)

(** A world with empty stores; the clock and the seeding play no role in
    the runs below. *)
Definition empty_world : World :=
  mkWorld [] [] [] [] (fun _ => 0) 0%nat (fun _ _ => 0)
          (fun old _ => (2 * old)%nat).

(** A world with one parameters object (address 0) whose source (address 0)
    is going to produce [ws]. *)
Definition world_with_source (ws : nat -> Z) : World :=
  mkWorld [] [] [mkGenParameters 100 1000 (Some 0%nat)] [mkRand ws 0]
          (fun _ => 0) 0%nat (fun _ _ => 0) (fun old _ => (2 * old)%nat).

(** The word sequence [first], then [second] for ever. *)
Definition two_words (first second : Z) : nat -> Z :=
  fun k => match k with O => first | S _ => second end.

(** A base generator that always produces [v], of declared type [t], with
    the given labels, sieve and shrinker. *)
Definition constGen (v : iface) (t : rtype) (lbls : list string)
    (sieve : option (iface -> res bool)) (shrinker : Shrinker) : Gen :=
  fun _ =>
    labels <- new_slice lbls ;;
    new_result (GenResult.mk labels shrinker (Some t) v sieve).

(** A base generator that always fails: its result has no value. *)
Definition failGen (t : rtype) (lbls : list string) : Gen :=
  fun _ =>
    labels <- new_slice lbls ;;
    new_result (GenResult.mk labels NoShrinker (Some t) VNil None).

(** The result object a run returned, read from the world it left. *)
Definition returned (o : outcome ptr) : option GenResult.t :=
  match o with
  | Ok (Some a) w => results w !! a
  | _ => None
  end.

(** The labels of the result object at [a], read in [w]. *)
Definition labels_at (w : World) (a : nat) : option (list string) :=
  match results w !! a with
  | Some r => Some (elements w (GenResult.Labels r))
  | None => None
  end.

(** The labels of the result object a run returned, read from the world it
    left. *)
Definition returned_labels (o : outcome ptr) : option (list string) :=
  match o with
  | Ok (Some a) w => labels_at w a
  | _ => None
  end.

(** ** Notions the properties are stated with *)

(** The generators of a list invoked one after the other, in list order, all
    with the same parameters object; each result object is read when its
    generator returns. *)
Fixpoint invoke_in_order (genParams : ptr) (gens : list Gen)
  : M (list GenResult.t) :=
  match gens with
  | [] => ret []
  | gen :: rest =>
      result <- gen genParams ;;
      r <- load_result result ;;
      rs <- invoke_in_order genParams rest ;;
      ret (r :: rs)
  end.

(** The labels the generators of a list carry, each read when its generator
    returns, on the same run as [invoke_in_order]. *)
Fixpoint labels_read_in_order (genParams : ptr) (gens : list Gen)
  : M (list string) :=
  match gens with
  | [] => ret []
  | gen :: rest =>
      result <- gen genParams ;;
      r <- load_result result ;;
      here <- read_slice (GenResult.Labels r) ;;
      later <- labels_read_in_order genParams rest ;;
      ret (here ++ later)
  end.

(** A slice as Go keeps it: not longer than its capacity, and the capacity,
    unless it is zero, within its backing array. *)
Definition valid_slice (w : World) (s : Slice) : Prop :=
  (len s <= cap s)%nat
  /\ (cap s = 0%nat
      \/ exists k arr,
          array s = Some k /\ arrays w !! k = Some arr
          /\ (offset s + cap s <= length arr)%nat).

(** The state an outcome leaves. *)
Definition world_of {A} (o : outcome A) : World :=
  match o with
  | Ok _ w => w
  | Panic _ w => w
  end.

(** A malformed function argument, in the words of the specification: not a
    function, a parameter count other than one, a parameter type the
    declared result type is not assignable to, a return count other than
    one, or (when a predicate is asked for) a return type that is not a
    bool. *)
Definition malformed (predicate : bool) (declared : rtype) (f : any) : bool :=
  match f with
  | Data _ => true
  | Fn fn =>
      match In fn, Out fn with
      | [in0], [out0] =>
          negb (AssignableTo declared in0)
          || (predicate && negb (Kind_eqb (kind_of out0) KBool))
      | _, _ => true
      end
  end.

(** The malformations that show without looking at the generator. *)
Definition not_unary_func (f : any) : bool :=
  match f with
  | Data _ => true
  | Fn fn => negb (Nat.eqb (length (In fn)) 1)
  end.

(** The sieve [SuchThat] leaves in a result whose sieve was [prevSieve]. *)
Definition conjoined (prevSieve : option (iface -> res bool))
    (sieve : iface -> res bool) : iface -> res bool :=
  match prevSieve with
  | None => sieve
  | Some prev => and_sieve prev sieve
  end.

(** A generation that succeeded with this value. *)
Definition succeeded (r : GenResult.t) (v : iface) : Prop :=
  Retrieve r = Val (v, true).

(** The locals after the generators of a prefix have all succeeded, their
    labels being [ls] and the capacity of the local [labels] now [c]. *)
Definition locals_after (i k : nat) (st : combine_locals)
    (rs : list GenResult.t) (vs : list iface) (ls : list string) (c : nat)
  : combine_locals :=
  mkLocals
    (labels st ++ ls)
    c
    (take i (values st) ++ vs ++ drop (i + k) (values st))
    (take i (shrinkers st) ++ map GenResult.Shrinker rs
       ++ drop (i + k) (shrinkers st))
    (take i (sieves st) ++ map GenResult.Sieve rs
       ++ drop (i + k) (sieves st)).

(** [a] is a result object constructed on top of the state [inner]:
    an address [inner] does not have, and nothing else differs. *)
Definition allocated (inner : World) (a : ptr) (w' : World) : Prop :=
  exists r,
    a = Some (length (results inner))
    /\ w' = set_results (results inner ++ [r]) inner.

(** [a] is a result object constructed on top of the state [inner]
    together with one new backing array (for its labels). *)
Definition allocated_with_array (inner : World) (a : ptr) (w' : World)
  : Prop :=
  exists r arr,
    a = Some (length (results inner))
    /\ w' = set_results (results inner ++ [r])
               (set_arrays (arrays inner ++ [arr]) inner).

(** The value an outcome returns, if it returns. *)
Definition value_of {A} (o : outcome A) : option A :=
  match o with
  | Ok a _ => Some a
  | Panic _ _ => None
  end.

(** In [w], the parameters object [p] points to holds the source stored at
    [a], whose state is [r]. *)
Definition draws_from (w : World) (p : ptr) (a : nat) (r : Rand) : Prop :=
  exists ap gp,
    p = Some ap /\ parameters w !! ap = Some gp
    /\ Rng gp = Some a /\ rands w !! a = Some r.

(** The [k]-th 63-bit value the source in state [r] is going to yield. *)
Definition word63 (r : Rand) (k : nat) : Z :=
  Z.land (words r (cursor r + k)%nat) (2 ^ 63 - 1).

(** [w] with the source at [a], which was in state [r], moved on by [k]
    draws; nothing else differs. *)
Definition advance (a : nat) (r : Rand) (k : nat) (w : World) : World :=
  set_rands (<[a := mkRand (words r) (cursor r + k)%nat]> (rands w)) w.

(** A base generator that hands out the same stored result object, the one
    at address [a], every time it is invoked, and writes nothing. *)
Definition sharedGen (a : nat) : Gen :=
  fun _ w =>
    match results w !! a with
    | Some _ => Ok (Some a) w
    | None => Panic nil_dereference w
    end.

(** * Properties *)

(** ** Generation parameters *)

Lemma mask63_ones : 2 ^ 63 - 1 = Z.ones 63.
Proof. reflexivity. Qed.

Lemma land_mask63_range (x : Z) : 0 <= Z.land x (2 ^ 63 - 1) <= MaxInt64.
Proof.
  rewrite mask63_ones, Z.land_ones by lia.
  pose proof (Z.mod_pos_bound x (2 ^ 63) ltac:(lia)).
  unfold MaxInt64. lia.
Qed.

Lemma land_mask63_small (x : Z) :
  0 <= x <= MaxInt64 -> Z.land x (2 ^ 63 - 1) = x.
Proof.
  intros Hx. rewrite mask63_ones, Z.land_ones by lia.
  apply Z.mod_small. unfold MaxInt64 in Hx. lia.
Qed.

Lemma int64_id (z : Z) : MinInt64 <= z <= MaxInt64 -> int64 z = z.
Proof.
  unfold int64, MinInt64, MaxInt64. intros Hz.
  rewrite Z.mod_small; lia.
Qed.

Lemma Int63_range (rng : ptr) (w w1 : World) (v : Z) :
  Int63 rng w = Ok v w1 -> 0 <= v <= MaxInt64.
Proof.
  unfold Int63. destruct rng as [a|]; [|discriminate].
  destruct (rands w !! a) as [r|]; [|discriminate].
  intros [= <- _]. apply land_mask63_range.
Qed.

(** What [NextInt64] computes from the two draws it makes. *)
Lemma NextInt64_draws (p : ptr) (gp : GenParameters) (w w1 w2 : World)
    (v : Z) (b : bool) :
  load_parameters p w = Ok gp w ->
  Int63 (Rng gp) w = Ok v w1 ->
  NextBool p w1 = Ok b w2 ->
  NextInt64 p w = Ok (if b then - v else v) w2.
Proof.
  intros Hp Hv Hb. pose proof (Int63_range _ _ _ _ Hv) as Hr.
  unfold NextInt64, bind. rewrite Hp, Hv, Hb.
  destruct b; unfold ret; [|reflexivity].
  rewrite int64_id; [reflexivity|]. unfold MinInt64, MaxInt64 in *. lia.
Qed.

Lemma NextInt64_range (p : ptr) (w w' : World) (n : Z) :
  NextInt64 p w = Ok n w' -> - MaxInt64 <= n <= MaxInt64.
Proof.
  unfold NextInt64, bind.
  destruct (load_parameters p w) as [gp w0|] eqn:Hp; [|discriminate].
  destruct (Int63 (Rng gp) w0) as [v w1|] eqn:Hv; [|discriminate].
  pose proof (Int63_range _ _ _ _ Hv) as Hr.
  destruct (NextBool p w1) as [b w2|]; [|discriminate].
  destruct b; unfold ret; intros [= <- _]; [|lia].
  rewrite int64_id; unfold MinInt64, MaxInt64 in *; lia.
Qed.

Lemma NextInt64_reaches (n : Z) :
  - MaxInt64 <= n <= MaxInt64 ->
  exists w', NextInt64 (Some 0%nat)
               (world_with_source
                  (two_words (Z.abs n) (if n <? 0 then 0 else 1)))
             = Ok n w'.
Proof.
  intros Hn.
  assert (Hv : Z.land (Z.abs n) (2 ^ 63 - 1) = Z.abs n)
    by (apply land_mask63_small; lia).
  destruct (Z.ltb_spec n 0) as [Hneg|Hpos]; eexists.
  - erewrite (NextInt64_draws (Some 0%nat)
                (mkGenParameters 100 1000 (Some 0%nat)) _ _ _ (Z.abs n) true);
      try reflexivity.
    + f_equal; lia.
    + unfold Int63; cbn. now rewrite Hv.
    + reflexivity.
  - erewrite (NextInt64_draws (Some 0%nat)
                (mkGenParameters 100 1000 (Some 0%nat)) _ _ _ (Z.abs n) false);
      try reflexivity.
    + f_equal; lia.
    + unfold Int63; cbn. now rewrite Hv.
    + reflexivity.
Qed.

(** C9: if the source next yields the magnitude 5 and the [NextBool] draw
    that follows yields [true], [NextInt64] returns -5; if that draw yields
    [false], it returns 5.  The magnitude is drawn first (from [w] to [w1]),
    the sign second (from [w1] to [w2]). *)
Theorem NextInt64_magnitude_5_then_sign (p : ptr) (gp : GenParameters)
    (w w1 w2 : World) (b : bool) :
  load_parameters p w = Ok gp w ->
  Int63 (Rng gp) w = Ok 5 w1 ->
  NextBool p w1 = Ok b w2 ->
  NextInt64 p w = Ok (if b then -5 else 5) w2.
Proof.
  intros Hp Hv Hb. exact (NextInt64_draws p gp w w1 w2 5 b Hp Hv Hb).
Qed.

Lemma NextInt64_magnitude_5_then_sign_witness :
  (exists w2, NextInt64 (Some 0%nat) (world_with_source (two_words 5 4))
              = Ok (-5) w2)
  /\ (exists w2, NextInt64 (Some 0%nat) (world_with_source (two_words 5 7))
                 = Ok 5 w2).
Proof.
  split; eexists.
  - eapply (NextInt64_magnitude_5_then_sign (Some 0%nat)
             (mkGenParameters 100 1000 (Some 0%nat))
             (world_with_source (two_words 5 4)) _ _ true);
      reflexivity.
  - eapply (NextInt64_magnitude_5_then_sign (Some 0%nat)
             (mkGenParameters 100 1000 (Some 0%nat))
             (world_with_source (two_words 5 7)) _ _ false);
      reflexivity.
Defined.

(** C3, as stated, fails at [math.MinInt64]: no parameters object and no
    state of its source make [NextInt64] return -2^63. *)
Lemma NextInt64_MinInt64_unreachable :
  ~ exists (p : ptr) (w w' : World), NextInt64 p w = Ok MinInt64 w'.
Proof.
  intros (p & w & w' & H). apply NextInt64_range in H.
  unfold MinInt64, MaxInt64 in H. lia.
Qed.

(** C3, amended: [NextInt64] draws a magnitude [v] with
    [0 <= v <= MaxInt64] from the source, then a sign with [NextBool], and
    returns [-v] or [v]; the values it can return are exactly those from
    [-MaxInt64] to [MaxInt64], so [math.MaxInt64] is reached and
    [math.MinInt64] is not. *)
Theorem NextInt64_sign_magnitude_span :
  (forall (p : ptr) (gp : GenParameters) (w w1 w2 : World) (v : Z) (b : bool),
      load_parameters p w = Ok gp w ->
      Int63 (Rng gp) w = Ok v w1 ->
      NextBool p w1 = Ok b w2 ->
      0 <= v <= MaxInt64 /\ NextInt64 p w = Ok (if b then - v else v) w2)
  /\ (forall n : Z,
         - MaxInt64 <= n <= MaxInt64 <->
         exists (p : ptr) (w w' : World), NextInt64 p w = Ok n w').
Proof.
  split.
  - intros p gp w w1 w2 v b Hp Hv Hb. split.
    + exact (Int63_range _ _ _ _ Hv).
    + exact (NextInt64_draws p gp w w1 w2 v b Hp Hv Hb).
  - intros n. split.
    + intros Hn. destruct (NextInt64_reaches n Hn) as [w' Hw'].
      eauto.
    + intros (p & w & w' & H). exact (NextInt64_range p w w' n H).
Qed.

Lemma NextInt64_sign_magnitude_span_witness :
  (exists (p : ptr) (w w' : World), NextInt64 p w = Ok MaxInt64 w')
  /\ (exists w2, NextInt64 (Some 0%nat) (world_with_source (two_words 9 2))
                 = Ok (-9) w2).
Proof.
  split.
  - apply (proj1 (proj2 NextInt64_sign_magnitude_span MaxInt64)).
    unfold MaxInt64. lia.
  - eexists.
    eapply (proj1 NextInt64_sign_magnitude_span (Some 0%nat)
             (mkGenParameters 100 1000 (Some 0%nat))
             (world_with_source (two_words 9 2)) _ _ 9 true);
      reflexivity.
Defined.

(** ** Stores *)

Lemma load_result_inv (p : ptr) (w w' : World) (r : GenResult.t) :
  load_result p w = Ok r w' ->
  w' = w /\ exists a, p = Some a /\ results w !! a = Some r.
Proof.
  unfold load_result. destruct p as [a|]; [|discriminate].
  destruct (results w !! a) as [r0|] eqn:E; [|discriminate].
  intros [= <- <-]. eauto.
Qed.

Lemma load_result_at (a : nat) (w : World) (r : GenResult.t) :
  results w !! a = Some r -> load_result (Some a) w = Ok r w.
Proof. intros E. unfold load_result. now rewrite E. Qed.

Lemma store_result_at (a : nat) (w : World) (r0 r : GenResult.t) :
  results w !! a = Some r0 ->
  store_result (Some a) r w = Ok tt (set_results (<[a := r]> (results w)) w).
Proof. intros E. unfold store_result. now rewrite E. Qed.

Lemma lookup_after_store (a : nat) (w : World) (r0 r : GenResult.t) :
  results w !! a = Some r0 ->
  results (set_results (<[a := r]> (results w)) w) !! a = Some r.
Proof.
  intros E. cbn. apply list_lookup_insert_eq. eapply lookup_lt_Some, E.
Qed.

Lemma lookup_new_result (r : GenResult.t) (w : World) :
  results (set_results (results w ++ [r]) w) !! length (results w) = Some r.
Proof. cbn. apply list_lookup_middle. reflexivity. Qed.


(** ** Slices *)

Lemma elements_length (w : World) (s : Slice) :
  valid_slice w s -> length (elements w s) = len s.
Proof.
  intros [Hle [Hcap|(k & arr & Hk & Harr & Hin)]]; unfold elements.
  - replace (len s) with 0%nat by lia.
    destruct (array s) as [k|]; [|reflexivity].
    destruct (arrays w !! k); reflexivity.
  - rewrite Hk, Harr, length_take, length_drop. lia.
Qed.

Lemma grown_fits (w : World) (old n : nat) : (n <= grown w old n)%nat.
Proof.
  unfold grown. destruct (Nat.leb_spec n old); lia.
Qed.

(** [append] writes arrays only. *)
Lemma append_inv (s s' : Slice) (x : string) (w w' : World) :
  append s x w = Ok s' w' -> w' = set_arrays (arrays w') w.
Proof.
  unfold append. destruct (len s <? cap s)%nat.
  - destruct (array s) as [k|]; [|intros [= _ <-]; now destruct w].
    destruct (arrays w !! k); intros [= _ <-]; [reflexivity|now destruct w].
  - now intros [= _ <-].
Qed.

(** [append] on a valid slice returns a valid slice that holds the old
    elements and the new one. *)
Lemma append_elements (s : Slice) (x : string) (w : World) :
  valid_slice w s ->
  exists s' w',
    append s x w = Ok s' w'
    /\ valid_slice w' s'
    /\ elements w' s' = elements w s ++ [x].
Proof.
  intros Hv. pose proof (elements_length w s Hv) as Hlen.
  destruct Hv as [Hle Harr]. unfold append.
  destruct (Nat.ltb_spec (len s) (cap s)) as [Hlt|Hge].
  - destruct Harr as [Hcap|(k & arr & Hk & Harr & Hin)]; [lia|].
    rewrite Hk, Harr. eexists _, _. split; [reflexivity|].
    pose proof (lookup_lt_Some _ _ _ Harr) as Hkl.
    split.
    + split; [cbn; lia|]. right.
      exists k, (<[(offset s + len s)%nat := x]> arr). cbn.
      split; [reflexivity|]. split.
      * apply list_lookup_insert_eq. exact Hkl.
      * rewrite length_insert. exact Hin.
    + unfold elements in *. cbn. rewrite Hk, Harr in Hlen.
      rewrite Hk, Harr. cbn. rewrite list_lookup_insert_eq by exact Hkl.
      rewrite drop_insert_ge by lia.
      replace (offset s + len s - offset s)%nat with (len s) by lia.
      rewrite (take_S_r _ (len s) x).
      * rewrite take_insert_ge by lia. reflexivity.
      * apply list_lookup_insert_eq. rewrite length_drop. lia.
  - eexists _, _. split; [reflexivity|].
    pose proof (grown_fits w (cap s) (S (len s))) as Hfit.
    split.
    + split; [cbn; exact Hfit|]. right. eexists _, _. cbn.
      split; [reflexivity|]. split.
      * apply list_lookup_middle. reflexivity.
      * rewrite length_app. cbn. rewrite length_replicate. lia.
    + unfold elements at 1. cbn [array len offset arrays set_arrays].
      rewrite list_lookup_middle by reflexivity. rewrite drop_0.
      change (elements w s ++ x :: ?zs) with (elements w s ++ [x] ++ zs).
      rewrite app_assoc.
      apply take_app_length'. rewrite length_app. cbn. lia.
Qed.

(** What [append] leaves alone: the arrays other than the slice's own, and
    the slices on them. *)
Lemma append_other_arrays (s s' : Slice) (x : string) (w w' : World) :
  append s x w = Ok s' w' ->
  (length (arrays w) <= length (arrays w'))%nat
  /\ (forall k, Some k <> array s -> (k < length (arrays w))%nat ->
                arrays w' !! k = arrays w !! k)
  /\ (array s' = array s \/ array s' = Some (length (arrays w))).
Proof.
  unfold append. destruct (len s <? cap s)%nat.
  - intros [= <- <-]. cbn [array]. split; [|split; [|left; reflexivity]];
      destruct (array s) as [k|] eqn:Hk; try reflexivity;
      destruct (arrays w !! k) as [arr|]; try reflexivity; cbn.
    + rewrite length_insert. lia.
    + intros j Hj _. apply list_lookup_insert_ne. congruence.
  - intros [= <- <-]. cbn. rewrite length_app. cbn.
    split; [lia|]. split; [|right; reflexivity].
    intros j _ Hj. apply lookup_app_l. exact Hj.
Qed.

(** ** CombineGens of no generators *)

(** C10: [CombineGens] of the empty list never fails: for every parameters
    object and every state it returns a fresh result whose value is the
    empty sequence, whose label list is empty, and whose sieve accepts the
    empty sequence, so that retrieving the value succeeds. *)
Theorem CombineGens_empty (genParams : ptr) (w : World) :
  exists (a : nat) (w' : World) (r : GenResult.t)
         (sieve : iface -> res bool),
    CombineGens [] genParams w = Ok (Some a) w'
    /\ results w' !! a = Some r
    /\ GenResult.result r = VSlice []
    /\ len (GenResult.Labels r) = 0%nat
    /\ elements w' (GenResult.Labels r) = []
    /\ GenResult.Sieve r = Some sieve
    /\ sieve (VSlice []) = Val true
    /\ Retrieve r = Val (VSlice [], true).
Proof.
  eexists _, _, _, _. split; [reflexivity|].
  split; [apply (lookup_new_result _ (set_arrays _ w))|].
  split; [reflexivity|]. split; [reflexivity|]. split.
  - unfold elements. cbn. destruct (_ !! _); reflexivity.
  - repeat split; reflexivity.
Qed.

(** ** FlatMap and Map *)

(** C7: when the base generation succeeds with value [v], [FlatMap] feeds
    [v] to the continuation and invokes the generator it gets with the same
    parameters object, in the state the base generator left, and returns
    its result as it is; when the base generation fails, it returns a fresh
    result without a value, whose declared type is the supplied one and
    whose labels are the base result's. *)
Theorem FlatMap_spec (g : Gen) (f : iface -> Gen) (resultType : option rtype)
    (genParams result : ptr) (w w1 : World) (r : GenResult.t) :
  g genParams w = Ok result w1 ->
  load_result result w1 = Ok r w1 ->
  (forall v, Retrieve r = Val (v, true) ->
     FlatMap g f resultType genParams w = f v genParams w1)
  /\ (forall v, Retrieve r = Val (v, false) ->
        FlatMap g f resultType genParams w
        = Ok (Some (length (results w1)))
             (set_results
                (results w1 ++
                   [GenResult.mk (GenResult.Labels r) NoShrinker resultType
                                 VNil None]) w1)).
Proof.
  intros Hg Hr. split; intros v Hv; unfold FlatMap, bind;
    rewrite Hg, Hr, Hv; reflexivity.
Qed.

Lemma FlatMap_spec_witness :
  let g := constGen (VInt 3) TInt ["n"] None NoShrinker in
  let f := fun v => constGen (VSlice [v; v]) (TSlice TInterface) ["pair"]
                             None NoShrinker in
  exists r,
    returned (FlatMap g f (Some (TSlice TInterface)) (Some 0%nat)
                (world_with_source (fun _ => 0))) = Some r
    /\ GenResult.result r = VSlice [VInt 3; VInt 3]
    /\ returned_labels
         (FlatMap g f (Some (TSlice TInterface)) (Some 0%nat)
            (world_with_source (fun _ => 0))) = Some ["pair"].
Proof.
  intros g f. eexists.
  rewrite (proj1 (FlatMap_spec g f (Some (TSlice TInterface)) (Some 0%nat)
                    (Some 0%nat) (world_with_source (fun _ => 0)) _ _
                    eq_refl eq_refl) (VInt 3) eq_refl).
  repeat split; reflexivity.
Defined.

(** What [Map] returns when it returns a generator. *)
Lemma Map_inv (g : Gen) (f : any) (w w' : World) (derived : Gen) :
  Map g f w = Ok derived w' ->
  exists mapperVal in0 out0 t,
    f = Fn mapperVal /\ In mapperVal = [in0] /\ Out mapperVal = [out0]
    /\ probe_ResultType g w = Ok (Some t) w'
    /\ AssignableTo t in0 = true
    /\ derived = Map_gen g mapperVal out0.
Proof.
  unfold Map. destruct f as [[]|mapperVal]; try discriminate.
  destruct (In mapperVal) as [|in0 [|]] eqn:Ein; try discriminate.
  unfold bind.
  destruct (probe_ResultType g w) as [[t|] w1|] eqn:Ep; try discriminate.
  destruct (AssignableTo t in0) eqn:Ea; try discriminate. cbn.
  destruct (Out mapperVal) as [|out0 [|]] eqn:Eout; try discriminate.
  intros [= <- <-]. eauto 10.
Qed.

(** C6: [g.Map(f)], once constructed, is a generator such that: when the
    inner generation succeeds with value [x], the result is a fresh object
    carrying [f(x)], the return type of [f] as declared type, the inner
    labels, no sieve and the no-op shrinker; when the inner generation
    fails, the result is a fresh object without a value, with the same
    labels and the return type of [f] as declared type. *)
Theorem Map_spec (g : Gen) (f : any) (w0 w0' : World) (derived : Gen) :
  Map g f w0 = Ok derived w0' ->
  exists mapperVal out0,
    f = Fn mapperVal /\ Out mapperVal = [out0]
    /\ forall (genParams result : ptr) (w w1 : World) (r : GenResult.t),
        g genParams w = Ok result w1 ->
        load_result result w1 = Ok r w1 ->
        (forall x y outs,
            RetrieveAsValue r = Val (x, true) ->
            Call mapperVal [x] = Val (y :: outs) ->
            derived genParams w
            = Ok (Some (length (results w1)))
                 (set_results
                    (results w1 ++
                       [GenResult.mk (GenResult.Labels r) NoShrinker
                                     (Some out0) y None]) w1))
        /\ (forall v,
               RetrieveAsValue r = Val (v, false) ->
               derived genParams w
               = Ok (Some (length (results w1)))
                    (set_results
                       (results w1 ++
                          [GenResult.mk (GenResult.Labels r) NoShrinker
                                        (Some out0) VNil None]) w1)).
Proof.
  intros HM.
  destruct (Map_inv g f w0 w0' derived HM)
    as (mapperVal & in0 & out0 & t & -> & Ein & Eout & _ & _ & ->).
  exists mapperVal, out0. split; [reflexivity|]. split; [assumption|].
  intros genParams result w w1 r Hg Hr. split.
  - intros x y outs Hx Hy. unfold Map_gen, bind.
    rewrite Hg, Hr, Hx. cbn. unfold bind. rewrite Hy. reflexivity.
  - intros v Hv. unfold Map_gen, bind. rewrite Hg, Hr, Hv. reflexivity.
Qed.

Lemma Map_spec_witness :
  let g := constGen (VInt 3) TInt ["n"] None NoShrinker in
  let f := Fn (mkFunc [TInt] [TString] (fun _ => Val [VString "three"])) in
  exists derived w0' r,
    Map g f empty_world = Ok derived w0'
    /\ returned (derived (Some 0%nat) w0') = Some r
    /\ GenResult.result r = VString "three"
    /\ GenResult.ResultType r = Some TString
    /\ returned_labels (derived (Some 0%nat) w0') = Some ["n"]
    /\ GenResult.Sieve r = None
    /\ GenResult.Shrinker r = NoShrinker.
Proof.
  intros g f.
  destruct (Map_spec g f empty_world _ _ eq_refl)
    as (mapperVal & out0 & Ef & Eout & H).
  injection Ef as <-. cbn in Eout. injection Eout as <-.
  eexists _, _, _. split; [reflexivity|].
  erewrite (fun w result w1 r Hg Hr =>
              proj1 (H (Some 0%nat) result w w1 r Hg Hr));
    cycle 1; [reflexivity ..|].
  repeat split; reflexivity.
Defined.

(** ** WithLabel, SuchThat and WithShrinker update in place *)

Section InPlace.
Variables (g : Gen) (genParams : ptr) (a : nat) (w w1 : World)
          (r : GenResult.t).
Hypothesis inner_run : g genParams w = Ok (Some a) w1.
Hypothesis inner_result : results w1 !! a = Some r.

(** What the three combinators do once the inner generator has returned
    the object at [a]: read it, write it back with one field changed. *)
Ltac read_then_write :=
  unfold bind; rewrite inner_run, (load_result_at a w1 r inner_result);
  cbv beta iota zeta.

Lemma WithLabel_run (label : string) (labels' : Slice) (w1' : World) :
  append (GenResult.Labels r) label w1 = Ok labels' w1' ->
  WithLabel g label genParams w
  = Ok (Some a)
       (set_results
          (<[a := GenResult.with_Labels labels' r]> (results w1')) w1').
Proof.
  intros Happ. unfold WithLabel. read_then_write. rewrite Happ.
  assert (Hr' : results w1' !! a = Some r)
    by (rewrite (append_inv _ _ _ _ _ Happ); exact inner_result).
  rewrite (store_result_at a w1' r _ Hr'). reflexivity.
Qed.

Lemma WithShrinker_run (shrinker : Shrinker) :
  WithShrinker g shrinker genParams w
  = Ok (Some a)
       (set_results
          (<[a := GenResult.with_Shrinker
                    (match shrinker with
                     | None => NoShrinker
                     | Some _ => shrinker
                     end) r]>
             (results w1)) w1).
Proof.
  unfold WithShrinker. read_then_write.
  destruct shrinker; rewrite (store_result_at a w1 r _ inner_result);
    reflexivity.
Qed.

Lemma SuchThat_gen_run (sieve : iface -> res bool) :
  SuchThat_gen g sieve genParams w
  = Ok (Some a)
       (set_results
          (<[a := GenResult.with_Sieve
                    (Some (conjoined (GenResult.Sieve r) sieve)) r]>
             (results w1)) w1).
Proof.
  unfold SuchThat_gen. read_then_write.
  destruct (GenResult.Sieve r); cbv beta iota zeta;
    rewrite (store_result_at a w1 r _ inner_result); reflexivity.
Qed.

End InPlace.




(** ** Stacked sieves *)




(** ** The loop of CombineGens *)

Lemma invoke_in_order_cons (genParams : ptr) (gen : Gen) (rest : list Gen)
    (w w' : World) (rs : list GenResult.t) :
  invoke_in_order genParams (gen :: rest) w = Ok rs w' ->
  exists result w1 r rs',
    gen genParams w = Ok result w1
    /\ load_result result w1 = Ok r w1
    /\ invoke_in_order genParams rest w1 = Ok rs' w'
    /\ rs = r :: rs'.
Proof.
  cbn. unfold bind.
  destruct (gen genParams w) as [result w1|] eqn:Hg; [|discriminate].
  destruct (load_result result w1) as [r w1'|] eqn:Hr; [|discriminate].
  destruct (load_result_inv _ _ _ _ Hr) as [-> _].
  destruct (invoke_in_order genParams rest w1) as [rs' w2|] eqn:Hrest;
    [|discriminate].
  intros [= <- <-]. eauto 10.
Qed.

(** Writing slot [i] of a slice whose slots below [i] are already final. *)
Lemma fill_slot {A} (l : list A) (i k : nat) (x : A) (xs : list A) :
  (i < length l)%nat ->
  take (S i) (<[i := x]> l) ++ xs ++ drop (S i + k) (<[i := x]> l)
  = take i l ++ (x :: xs) ++ drop (i + S k) l.
Proof.
  intros Hi.
  rewrite (take_S_r _ i x) by (apply list_lookup_insert_eq; exact Hi).
  rewrite take_insert_ge by lia.
  rewrite drop_insert_lt by lia.
  rewrite <- app_assoc. cbn. repeat f_equal. lia.
Qed.

Lemma locals_after_nil (i : nat) (st : combine_locals) :
  locals_after i 0 st [] [] [] (labels_cap st) = st.
Proof.
  destruct st as [ls c vs ss fs]. unfold locals_after. cbn.
  rewrite Nat.add_0_r, !app_nil_r, !take_drop. reflexivity.
Qed.

(** The labels read on the run of [invoke_in_order]. *)
Lemma labels_read_in_order_cons (genParams : ptr) (gen : Gen)
    (rest : list Gen) (w w1 : World) (result : ptr) (r : GenResult.t) :
  gen genParams w = Ok result w1 ->
  load_result result w1 = Ok r w1 ->
  labels_read_in_order genParams (gen :: rest) w
  = match labels_read_in_order genParams rest w1 with
    | Ok later w' => Ok (elements w1 (GenResult.Labels r) ++ later) w'
    | Panic msg w' => Panic msg w'
    end.
Proof.
  intros Hg Hr. cbn [labels_read_in_order]. unfold bind, read_slice, ret.
  rewrite Hg, Hr. reflexivity.
Qed.

Lemma labels_read_in_order_exists (genParams : ptr) (gens : list Gen) :
  forall (w w' : World) (rs : list GenResult.t),
    invoke_in_order genParams gens w = Ok rs w' ->
    exists ls, labels_read_in_order genParams gens w = Ok ls w'.
Proof.
  induction gens as [|gen rest IH]; intros w w' rs Hrun.
  - cbn in Hrun. injection Hrun as _ <-. exists []. reflexivity.
  - destruct (invoke_in_order_cons _ _ _ _ _ _ Hrun)
      as (result & wa & r & rs' & Hg & Hr & Hrest & ->).
    destruct (IH _ _ _ Hrest) as (later & Hlater).
    rewrite (labels_read_in_order_cons _ _ _ _ _ _ _ Hg Hr), Hlater.
    eauto.
Qed.

Lemma CombineGens_loop_app (genParams : ptr) (pre rest : list Gen) :
  forall (i : nat) (st : combine_locals) (w w1 : World)
         (rs : list GenResult.t) (vs : list iface) (ls : list string),
    invoke_in_order genParams pre w = Ok rs w1 ->
    labels_read_in_order genParams pre w = Ok ls w1 ->
    Forall2 succeeded rs vs ->
    (i + length pre <= length (values st))%nat ->
    (i + length pre <= length (shrinkers st))%nat ->
    (i + length pre <= length (sieves st))%nat ->
    (length (labels st) <= labels_cap st)%nat ->
    exists c,
      (length (labels st ++ ls) <= c)%nat
      /\ CombineGens_loop genParams i (pre ++ rest) st w
         = CombineGens_loop genParams (i + length pre) rest
             (locals_after i (length pre) st rs vs ls c) w1.
Proof.
  induction pre as [|gen pre IH];
    intros i st w w1 rs vs ls Hrun Hlabels Hok Lv Ls Lf Lc.
  - cbn in Hrun, Hlabels. injection Hrun as <- <-.
    injection Hlabels as <-. inversion Hok; subst.
    exists (labels_cap st). rewrite app_nil_r. split; [exact Lc|].
    cbn [length app]. rewrite locals_after_nil, Nat.add_0_r. reflexivity.
  - destruct (invoke_in_order_cons _ _ _ _ _ _ Hrun)
      as (result & wa & r & rs' & Hg & Hr & Hrest & ->).
    rewrite (labels_read_in_order_cons _ _ _ _ _ _ _ Hg Hr) in Hlabels.
    destruct (labels_read_in_order genParams pre wa) as [later wl|] eqn:Hl;
      [|discriminate].
    injection Hlabels as <- ->.
    inversion Hok as [|? v ? vs' Hv Hok']; subst.
    cbn [length] in Lv, Ls, Lf.
    set (labels1 := labels st ++ elements wa (GenResult.Labels r)).
    set (cap1 := grown wa (labels_cap st) (length labels1)).
    destruct (IH (S i)
                (mkLocals labels1 cap1 (<[i := v]> (values st))
                   (<[i := GenResult.Shrinker r]> (shrinkers st))
                   (<[i := GenResult.Sieve r]> (sieves st)))
                wa w1 rs' vs' later Hrest Hl Hok')
      as (c & Hc & Hloop);
      cbn [values shrinkers sieves labels labels_cap];
      rewrite ?length_insert; try lia.
    { apply grown_fits. }
    exists c. cbn [labels] in Hc. unfold labels1 in Hc.
    rewrite <- app_assoc in Hc. split; [exact Hc|].
    cbn [app CombineGens_loop]. unfold bind at 1. rewrite Hg.
    unfold bind at 1. rewrite Hr.
    unfold bind at 1, append_labels.
    unfold bind at 1. unfold succeeded in Hv. rewrite Hv. cbn [lift ret negb].
    fold labels1 cap1. rewrite Hloop.
    cbn [length]. rewrite <- Nat.add_succ_comm. f_equal.
    unfold locals_after. cbn [labels values shrinkers sieves map].
    rewrite !fill_slot by lia. unfold labels1. rewrite <- app_assoc.
    reflexivity.
Qed.

Lemma invoke_in_order_length (genParams : ptr) (gens : list Gen) :
  forall (w w' : World) (rs : list GenResult.t),
    invoke_in_order genParams gens w = Ok rs w' -> length rs = length gens.
Proof.
  induction gens as [|gen rest IH]; intros w w' rs Hrun.
  - cbn in Hrun. now injection Hrun as <- _.
  - destruct (invoke_in_order_cons _ _ _ _ _ _ Hrun)
      as (result & wa & r & rs' & _ & _ & Hrest & ->).
    cbn. f_equal. exact (IH _ _ _ Hrest).
Qed.

Lemma CombineGens_sieve_loop_accepts
    (sieves : list (option (iface -> res bool))) (xs : list iface) :
  forall i : nat,
    (i + length xs <= length sieves)%nat ->
    CombineGens_sieve_loop sieves i xs = Val true <->
    (forall (j : nat) (x : iface) (sieve : iface -> res bool),
        xs !! j = Some x ->
        sieves !! (i + j)%nat = Some (Some sieve) ->
        sieve x = Val true).
Proof.
  induction xs as [|x rest IH]; intros i Hlen.
  - cbn. split; [|reflexivity]. intros _ j y sieve Hj. discriminate Hj.
  - cbn [length] in Hlen. cbn [CombineGens_sieve_loop].
    destruct (lookup_lt_is_Some_2 sieves i ltac:(lia)) as [slot Hslot].
    rewrite Hslot.
    assert (Htail :
      (forall j y sieve, rest !! j = Some y ->
                         sieves !! (S i + j)%nat = Some (Some sieve) ->
                         sieve y = Val true) <->
      (forall j y sieve, (x :: rest) !! S j = Some y ->
                         sieves !! (i + S j)%nat = Some (Some sieve) ->
                         sieve y = Val true)).
    { split; intros H j y sieve Hy Hs; apply (H j y sieve); try exact Hy;
        replace (S i + j)%nat with (i + S j)%nat in * by lia; exact Hs. }
    destruct slot as [sieve0|].
    + unfold res_bind. split.
      * intros Hacc j y sieve Hy Hs.
        destruct (sieve0 x) as [[]|] eqn:E0; try discriminate.
        cbn [negb] in Hacc.
        destruct j as [|j].
        -- cbn in Hy. injection Hy as <-.
           rewrite Nat.add_0_r, Hslot in Hs. injection Hs as <-. exact E0.
        -- pose proof (proj1 (IH (S i) ltac:(lia)) Hacc) as Hrest.
           apply (proj1 Htail Hrest j y sieve Hy Hs).
      * intros H.
        rewrite (H 0%nat x sieve0 eq_refl)
          by (rewrite Nat.add_0_r; exact Hslot).
        cbn. apply (proj2 (IH (S i) ltac:(lia))). apply Htail.
        intros j y sieve Hy Hs. exact (H (S j) y sieve Hy Hs).
    + rewrite IH by lia. split.
      * intros H j y sieve Hy Hs. destruct j as [|j].
        -- rewrite Nat.add_0_r, Hslot in Hs. discriminate Hs.
        -- apply (proj1 Htail H j y sieve Hy Hs).
      * intros H. apply Htail. intros j y sieve Hy Hs.
        exact (H (S j) y sieve Hy Hs).
Qed.

Lemma CombineGens_run_prefix (pre rest : list Gen) (genParams : ptr)
    (w w1 : World) (rs : list GenResult.t) (vs : list iface)
    (ls : list string) :
  invoke_in_order genParams pre w = Ok rs w1 ->
  labels_read_in_order genParams pre w = Ok ls w1 ->
  Forall2 succeeded rs vs ->
  let n := length (pre ++ rest) in
  exists c,
    (length ls <= c)%nat
    /\ CombineGens_loop genParams 0 (pre ++ rest)
         (mkLocals [] 0 (replicate n VNil) (replicate n None)
                   (replicate n None)) w
       = CombineGens_loop genParams (length pre) rest
           (mkLocals ls c
                     (vs ++ replicate (length rest) VNil)
                     (map GenResult.Shrinker rs
                        ++ replicate (length rest) None)
                     (map GenResult.Sieve rs
                        ++ replicate (length rest) None)) w1.
Proof.
  intros Hrun Hlabels Hok n.
  assert (Hn : n = (length pre + length rest)%nat)
    by (unfold n; apply length_app).
  destruct (CombineGens_loop_app genParams pre rest 0
              (mkLocals [] 0 (replicate n VNil) (replicate n None)
                        (replicate n None))
              w w1 rs vs ls Hrun Hlabels Hok) as (c & Hc & Hloop);
    cbn [values shrinkers sieves labels labels_cap length];
    rewrite ?length_replicate; try lia.
  exists c. split; [exact Hc|]. rewrite Hloop.
  unfold locals_after. cbn [labels values shrinkers sieves take app Nat.add].
  rewrite Hn, !drop_replicate_add. reflexivity.
Qed.

(** C5: when the generators of the list, invoked in list order with the same
    parameters object, all succeed, [CombineGens] ends in the state these
    invocations leave, plus one fresh result object and the backing array
    of its labels: its value is the sequence of the generators' values (as
    many as there are generators), its labels are the generators' labels,
    each read when its generator returned, concatenated in invocation
    order, its shrinker is [CombineShrinker] of the per-position shrinkers,
    and its sieve accepts an aggregate exactly when every component sieve
    that is present accepts the component at its position. *)
Theorem CombineGens_all_succeed (gens : list Gen) (genParams : ptr)
    (w w' : World) (rs : list GenResult.t) (vs : list iface) :
  invoke_in_order genParams gens w = Ok rs w' ->
  Forall2 succeeded rs vs ->
  (exists (ls : list string) (c : nat),
      labels_read_in_order genParams gens w = Ok ls w'
      /\ (length ls <= c)%nat
      /\ CombineGens gens genParams w
         = Ok (Some (length (results w')))
              (set_results
                 (results w' ++
                    [GenResult.mk
                       (mkSlice (Some (length (arrays w'))) 0 (length ls) c)
                       (CombineShrinker (map GenResult.Shrinker rs))
                       (Some (TSlice TInterface))
                       (VSlice vs)
                       (Some (CombineGens_sieve (map GenResult.Sieve rs)))])
                 (set_arrays
                    (arrays w' ++
                       [ls ++ replicate (c - length ls) EmptyString]) w'))
      /\ returned_labels (CombineGens gens genParams w) = Some ls)
  /\ length vs = length gens
  /\ forall xs : list iface,
      (length xs <= length gens)%nat ->
      CombineGens_sieve (map GenResult.Sieve rs) (VSlice xs) = Val true <->
      (forall (i : nat) (x : iface) (r : GenResult.t)
              (sieve : iface -> res bool),
          xs !! i = Some x ->
          rs !! i = Some r ->
          GenResult.Sieve r = Some sieve ->
          sieve x = Val true).
Proof.
  intros Hrun Hok.
  pose proof (invoke_in_order_length _ _ _ _ _ Hrun) as Hlen.
  pose proof (Forall2_length _ _ _ Hok) as Hlen'.
  split; [|split].
  - destruct (labels_read_in_order_exists _ _ _ _ _ Hrun) as (ls & Hls).
    destruct (CombineGens_run_prefix gens [] genParams w w' rs vs ls
                Hrun Hls Hok) as (c & Hc & Hloop).
    rewrite app_nil_r in Hloop.
    assert (Hgo : CombineGens gens genParams w
                  = Ok (Some (length (results w')))
                       (set_results
                          (results w' ++
                             [GenResult.mk
                                (mkSlice (Some (length (arrays w'))) 0
                                         (length ls) c)
                                (CombineShrinker (map GenResult.Shrinker rs))
                                (Some (TSlice TInterface))
                                (VSlice vs)
                                (Some (CombineGens_sieve
                                         (map GenResult.Sieve rs)))])
                          (set_arrays
                             (arrays w' ++
                                [ls ++ replicate (c - length ls) EmptyString])
                             w'))).
    { unfold CombineGens, bind. rewrite Hloop.
      cbn [CombineGens_loop ret length replicate labels labels_cap values
           shrinkers sieves].
      rewrite !app_nil_r. reflexivity. }
    exists ls, c. split; [exact Hls|]. split; [exact Hc|].
    split; [exact Hgo|]. rewrite Hgo.
    unfold returned_labels, labels_at.
    rewrite (lookup_new_result _ (set_arrays _ w')).
    unfold elements. cbn [GenResult.Labels array offset len arrays set_results
                          set_arrays].
    rewrite list_lookup_middle by reflexivity. rewrite drop_0.
    f_equal. apply take_app_length.
  - lia.
  - intros xs Hxs. cbn [CombineGens_sieve].
    rewrite CombineGens_sieve_loop_accepts
      by (rewrite length_map; cbn; lia).
    cbn [Nat.add]. split.
    + intros H i x r sieve Hx Hr Hs. apply (H i x sieve Hx).
      rewrite list_lookup_fmap_Some_2 with (x := r); [now f_equal|exact Hr].
    + intros H i x sieve Hx Hs.
      change (map GenResult.Sieve rs) with (GenResult.Sieve <$> rs) in Hs.
      apply list_lookup_fmap_Some_1 in Hs as (r & Hs & Hr).
      exact (H i x r sieve Hx Hr (eq_sym Hs)).
Qed.

Lemma CombineGens_all_succeed_witness :
  let gens :=
    [constGen (VInt 1) TInt ["a"] None NoShrinker;
     constGen (VString "x") TString ["b"; "c"]
              (Some (fun _ => Val true)) NoShrinker] in
  exists r,
    returned (CombineGens gens (Some 0%nat) (world_with_source (fun _ => 0)))
    = Some r
    /\ GenResult.result r = VSlice [VInt 1; VString "x"]
    /\ returned_labels
         (CombineGens gens (Some 0%nat) (world_with_source (fun _ => 0)))
       = Some ["a"; "b"; "c"].
Proof.
  intros gens.
  edestruct (fun w' rs =>
               CombineGens_all_succeed gens (Some 0%nat)
                 (world_with_source (fun _ => 0)) w' rs
                 [VInt 1; VString "x"])
    as ((ls & c & Hls & _ & Hrun & Hlabels) & _ & _).
  - reflexivity.
  - constructor; [exact eq_refl|].
    constructor; [exact eq_refl|]. constructor.
  - rewrite Hlabels, Hrun. injection Hls as <-.
    eexists. split; [reflexivity|]. split; reflexivity.
Defined.

(** C1, as stated, fails on the labels: with [gA] always succeeding with 1
    under the label "a" and [gB] always failing under the label "b", the
    failure result of [CombineGens(gA, gB)] carries the labels of [gB]
    alone, not those of [gA] followed by those of [gB]. *)
Lemma CombineGens_failure_keeps_only_failing_labels :
  let gA := constGen (VInt 1) TInt ["a"] None NoShrinker in
  let gB := failGen TInt ["b"] in
  let run := CombineGens [gA; gB] (Some 0%nat)
               (world_with_source (fun _ => 0)) in
  exists r,
    returned run = Some r
    /\ GenResult.result r = VNil
    /\ returned_labels run = Some ["b"]
    /\ returned_labels run <> Some (["a"] ++ ["b"]).
Proof.
  intros gA gB run. eexists. split; [reflexivity|].
  split; [reflexivity|]. split; [reflexivity|]. discriminate.
Qed.

(** C1, amended: if the generators before some generator of the list all
    succeed and that generator fails, [CombineGens] fails at once: the
    generators after it are not invoked, and the result is a fresh object
    without a value (no partial aggregate), from which nothing can be
    retrieved, and whose labels are those of the failing generator's result
    (the labels of the generators before it are not in it). *)
Theorem CombineGens_first_failure (pre post : list Gen) (gk : Gen)
    (genParams result : ptr) (w w1 w2 : World) (rs : list GenResult.t)
    (vs : list iface) (r : GenResult.t) (v : iface) :
  invoke_in_order genParams pre w = Ok rs w1 ->
  Forall2 succeeded rs vs ->
  gk genParams w1 = Ok result w2 ->
  load_result result w2 = Ok r w2 ->
  Retrieve r = Val (v, false) ->
  let failure :=
    GenResult.mk (GenResult.Labels r) NoShrinker (Some (TSlice TInterface))
                 VNil None in
  CombineGens (pre ++ gk :: post) genParams w
  = Ok (Some (length (results w2)))
       (set_results (results w2 ++ [failure]) w2)
  /\ Retrieve failure = Val (VNil, false).
Proof.
  intros Hrun Hok Hg Hr Hv failure. split; [|reflexivity].
  destruct (labels_read_in_order_exists _ _ _ _ _ Hrun) as (ls & Hls).
  destruct (CombineGens_run_prefix pre (gk :: post) genParams w w1 rs vs ls
              Hrun Hls Hok) as (c & _ & Hloop).
  unfold CombineGens, bind. rewrite Hloop.
  cbn [CombineGens_loop]. unfold bind at 1. rewrite Hg.
  unfold bind at 1. rewrite Hr. unfold bind at 1, append_labels.
  unfold bind at 1. rewrite Hv. reflexivity.
Qed.

Lemma CombineGens_first_failure_witness :
  let gA := constGen (VInt 1) TInt ["a"] None NoShrinker in
  let gB := failGen TInt ["b"] in
  let run := CombineGens ([gA] ++ gB :: [gA]) (Some 0%nat)
               (world_with_source (fun _ => 0)) in
  exists r,
    returned run = Some r
    /\ GenResult.result r = VNil
    /\ returned_labels run = Some ["b"].
Proof.
  intros gA gB run. unfold run.
  edestruct (fun result w1 w2 rs =>
               CombineGens_first_failure [gA] [gA] gB (Some 0%nat) result
                 (world_with_source (fun _ => 0)) w1 w2 rs [VInt 1])
    as (Hrun & _).
  - reflexivity.
  - constructor; [exact eq_refl|]. constructor.
  - reflexivity.
  - reflexivity.
  - reflexivity.
  - rewrite Hrun. eexists. split; [reflexivity|]. split; reflexivity.
Defined.

(** ** Which combinators construct a result and which update one *)

Lemma allocated_frame (inner : World) (a : ptr) (w' : World) :
  allocated inner a w' ->
  parameters w' = parameters inner
  /\ rands w' = rands inner
  /\ arrays w' = arrays inner
  /\ forall (b : nat) (r : GenResult.t),
      results inner !! b = Some r ->
      a <> Some b /\ results w' !! b = Some r.
Proof.
  intros (r0 & -> & ->). split; [reflexivity|]. split; [reflexivity|].
  split; [reflexivity|].
  intros b r Hb. pose proof (lookup_lt_Some _ _ _ Hb) as Hlt. split.
  - intros [= E]. lia.
  - cbn. rewrite lookup_app_l by exact Hlt. exact Hb.
Qed.

Lemma allocated_with_array_frame (inner : World) (a : ptr) (w' : World) :
  allocated_with_array inner a w' ->
  parameters w' = parameters inner
  /\ rands w' = rands inner
  /\ (forall (k : nat) (arr : list string),
         arrays inner !! k = Some arr -> arrays w' !! k = Some arr)
  /\ forall (b : nat) (r : GenResult.t),
      results inner !! b = Some r ->
      a <> Some b /\ results w' !! b = Some r.
Proof.
  intros (r0 & arr0 & -> & ->). split; [reflexivity|]. split; [reflexivity|].
  split.
  - intros k arr Hk. cbn.
    rewrite lookup_app_l by (eapply lookup_lt_Some, Hk). exact Hk.
  - intros b r Hb. pose proof (lookup_lt_Some _ _ _ Hb) as Hlt. split.
    + intros [= E]. lia.
    + cbn. rewrite lookup_app_l by exact Hlt. exact Hb.
Qed.

Lemma new_result_allocated (r : GenResult.t) (w : World) (a : ptr)
    (w' : World) :
  new_result r w = Ok a w' -> allocated w a w'.
Proof. unfold new_result. intros [= <- <-]. exists r. split; reflexivity. Qed.

Lemma Map_gen_allocates (g : Gen) (mapperVal : Func) (out0 : rtype)
    (genParams result a : ptr) (w w1 w' : World) :
  g genParams w = Ok result w1 ->
  Map_gen g mapperVal out0 genParams w = Ok a w' ->
  allocated w1 a w'.
Proof.
  intros Hg. unfold Map_gen, bind. rewrite Hg.
  destruct (load_result result w1) as [r w1'|] eqn:Hr; [|discriminate].
  destruct (load_result_inv _ _ _ _ Hr) as [-> _].
  destruct (RetrieveAsValue r) as [[x ok]|]; cbn; [|discriminate].
  destruct ok.
  - unfold bind. destruct (Call mapperVal [x]) as [[|y outs]|]; cbn;
      try discriminate.
    apply new_result_allocated.
  - apply new_result_allocated.
Qed.

Lemma CombineGens_loop_inv (genParams : ptr) (gens : list Gen) :
  forall (i : nat) (st : combine_locals) (w w' : World)
         (o : ptr + combine_locals),
    CombineGens_loop genParams i gens st w = Ok o w' ->
    match o with
    | inr _ => exists rs, invoke_in_order genParams gens w = Ok rs w'
    | inl a =>
        exists k rs w1,
          invoke_in_order genParams (take k gens) w = Ok rs w1
          /\ allocated w1 a w'
    end.
Proof.
  induction gens as [|gen rest IH]; intros i st w w' o.
  - cbn. intros [= <- <-]. exists []. reflexivity.
  - cbn [CombineGens_loop]. unfold bind at 1.
    destruct (gen genParams w) as [result wa|] eqn:Hg; [|discriminate].
    unfold bind at 1.
    destruct (load_result result wa) as [r wa'|] eqn:Hr; [|discriminate].
    destruct (load_result_inv _ _ _ _ Hr) as [-> _].
    unfold bind at 1.
    destruct (Retrieve r) as [[v ok]|]; cbn [lift ret panic];
      [|discriminate].
    destruct ok; cbn [negb].
    + intros Hloop. apply IH in Hloop. destruct o as [a|st'].
      * destruct Hloop as (k & rs & w1 & Hrun & Halloc).
        exists (S k), (r :: rs), w1. split; [|exact Halloc].
        cbn [take invoke_in_order]. unfold bind. rewrite Hg, Hr, Hrun.
        reflexivity.
      * destruct Hloop as (rs & Hrun). exists (r :: rs).
        cbn [invoke_in_order]. unfold bind. rewrite Hg, Hr, Hrun.
        reflexivity.
    + unfold bind, new_result, ret. intros [= <- <-].
      exists 1%nat, [r], wa. split.
      * cbn [take invoke_in_order]. unfold bind. rewrite Hg, Hr.
        reflexivity.
      * eexists. split; reflexivity.
Qed.

Lemma CombineGens_allocates (gens : list Gen) (genParams a : ptr)
    (w w' : World) :
  CombineGens gens genParams w = Ok a w' ->
  exists k rs w1,
    invoke_in_order genParams (take k gens) w = Ok rs w1
    /\ (allocated w1 a w' \/ allocated_with_array w1 a w').
Proof.
  unfold CombineGens, bind.
  destruct (CombineGens_loop genParams 0 gens _ w) as [o w1|] eqn:Hloop;
    [|discriminate].
  apply CombineGens_loop_inv in Hloop. destruct o as [failed|st].
  - unfold ret. intros [= <- <-].
    destruct Hloop as (k & rs & w0 & Hrun & Halloc). eauto 10.
  - destruct Hloop as (rs & Hrun). unfold escape_labels, new_result.
    intros [= <- <-].
    exists (length gens), rs, w1. rewrite firstn_all. split; [exact Hrun|].
    right. eexists _, _. split; reflexivity.
Qed.

Lemma append_in_place (s : Slice) (x : string) (w : World) (k : nat)
    (arr : list string) :
  (len s < cap s)%nat ->
  array s = Some k ->
  arrays w !! k = Some arr ->
  append s x w
  = Ok (mkSlice (Some k) (offset s) (S (len s)) (cap s))
       (set_arrays
          (<[k := <[(offset s + len s)%nat := x]> arr]> (arrays w)) w).
Proof.
  intros Hlt Hk Harr. unfold append.
  destruct (Nat.ltb_spec (len s) (cap s)); [|lia].
  rewrite Hk, Harr. reflexivity.
Qed.

Lemma append_set_results (s : Slice) (x : string) (h : list GenResult.t)
    (w : World) :
  append s x (set_results h w)
  = match append s x w with
    | Ok s' w' => Ok s' (set_results h w')
    | Panic msg w' => Panic msg (set_results h w')
    end.
Proof.
  unfold append. destruct (len s <? cap s)%nat; [|reflexivity].
  destruct (array s) as [k|]; [|reflexivity]. cbn.
  destruct (arrays w !! k); reflexivity.
Qed.

Lemma append_returns (s : Slice) (x : string) (w : World) :
  exists s' w', append s x w = Ok s' w'.
Proof. unfold append. destruct (len s <? cap s)%nat; eauto. Qed.

Lemma append_grows (s : Slice) (x : string) (w : World) :
  (cap s <= len s)%nat ->
  append s x w
  = Ok (mkSlice (Some (length (arrays w))) 0 (S (len s))
                (grown w (cap s) (S (len s))))
       (set_arrays
          (arrays w ++
             [elements w s
                ++ x :: replicate (grown w (cap s) (S (len s)) - S (len s))
                                  EmptyString]) w).
Proof.
  intros Hge. unfold append.
  destruct (Nat.ltb_spec (len s) (cap s)); [lia|]. reflexivity.
Qed.

Lemma labels_at_after_store (a : nat) (w : World) (r0 r : GenResult.t) :
  results w !! a = Some r0 ->
  labels_at (set_results (<[a := r]> (results w)) w) a
  = Some (elements w (GenResult.Labels r)).
Proof.
  intros Hr. unfold labels_at. rewrite (lookup_after_store a w r0 r Hr).
  reflexivity.
Qed.

(** [WithLabel] on a result with valid labels: the object returned carries
    the old labels and the new one. *)
Lemma WithLabel_labels (g : Gen) (genParams : ptr) (a : nat) (w w1 : World)
    (r : GenResult.t) (label : string) :
  g genParams w = Ok (Some a) w1 ->
  results w1 !! a = Some r ->
  valid_slice w1 (GenResult.Labels r) ->
  exists labels' w1',
    append (GenResult.Labels r) label w1 = Ok labels' w1'
    /\ valid_slice w1' labels'
    /\ WithLabel g label genParams w
       = Ok (Some a)
            (set_results
               (<[a := GenResult.with_Labels labels' r]> (results w1')) w1')
    /\ labels_at
         (set_results
            (<[a := GenResult.with_Labels labels' r]> (results w1')) w1') a
       = Some (elements w1 (GenResult.Labels r) ++ [label]).
Proof.
  intros Hg Hr Hv.
  destruct (append_elements _ label _ Hv) as (labels' & w1' & Happ & Hv' & He).
  exists labels', w1'. split; [exact Happ|]. split; [exact Hv'|]. split.
  - exact (WithLabel_run g genParams a w w1 r Hg Hr label labels' w1' Happ).
  - assert (Hr' : results w1' !! a = Some r)
      by (rewrite (append_inv _ _ _ _ _ Happ); exact Hr).
    rewrite (labels_at_after_store a w1' r _ Hr'). cbn. rewrite He.
    reflexivity.
Qed.

(** C2, as stated, fails for [WithLabel]: the derived generator returns the
    very object the inner generator returned (address [a]), and that
    object's labels have been rewritten. *)
Lemma WithLabel_rewrites_inner_result :
  let g := constGen (VInt 1) TInt [] None NoShrinker in
  let w := world_with_source (fun _ => 0) in
  exists a w1 w2 r1 r2,
    g (Some 0%nat) w = Ok (Some a) w1
    /\ results w1 !! a = Some r1
    /\ WithLabel g "x" (Some 0%nat) w = Ok (Some a) w2
    /\ results w2 !! a = Some r2
    /\ r1 <> r2
    /\ labels_at w1 a = Some []
    /\ labels_at w2 a = Some ["x"].
Proof.
  intros g w. eexists _, _, _, _, _.
  split; [reflexivity|]. split; [reflexivity|].
  split; [reflexivity|]. split; [reflexivity|].
  split; [discriminate|]. split; reflexivity.
Qed.

(** C2, amended: no combinator writes a [GenParameters] object or a random
    source.  [WithLabel], [SuchThat] and [WithShrinker] rewrite the result
    object received from the inner call (its labels, its sieve, its
    shrinker) and return that same object; [SuchThat] and [WithShrinker]
    change nothing else, and [WithLabel] also writes the label into the
    backing array of the labels when that array has spare capacity -- an
    array other results' labels may share -- and into a newly allocated
    array otherwise.  [Map], [CombineGens] (with a new backing array for
    the labels when it succeeds), and [FlatMap] when the base generation
    fails, return a freshly constructed result, distinct from every object
    that existed, and leave the existing objects and arrays unchanged;
    [FlatMap] when the base generation succeeds returns what the
    continuation's generator returns. *)
Theorem combinators_update_or_construct :
  (forall (g : Gen) (genParams : ptr) (a : nat) (w w1 : World)
          (r : GenResult.t),
      g genParams w = Ok (Some a) w1 ->
      results w1 !! a = Some r ->
      let s := GenResult.Labels r in
      (forall label,
          (forall k arr,
              (len s < cap s)%nat ->
              array s = Some k ->
              arrays w1 !! k = Some arr ->
              WithLabel g label genParams w
              = Ok (Some a)
                   (set_results
                      (<[a := GenResult.with_Labels
                                (mkSlice (Some k) (offset s) (S (len s))
                                         (cap s)) r]>
                         (results w1))
                      (set_arrays
                         (<[k := <[(offset s + len s)%nat := label]> arr]>
                            (arrays w1)) w1)))
          /\ ((cap s <= len s)%nat ->
              let c := grown w1 (cap s) (S (len s)) in
              WithLabel g label genParams w
              = Ok (Some a)
                   (set_results
                      (<[a := GenResult.with_Labels
                                (mkSlice (Some (length (arrays w1))) 0
                                         (S (len s)) c) r]>
                         (results w1))
                      (set_arrays
                         (arrays w1 ++
                            [elements w1 s
                               ++ label :: replicate (c - S (len s))
                                                     EmptyString]) w1)))
          /\ (valid_slice w1 s ->
              exists w',
                WithLabel g label genParams w = Ok (Some a) w'
                /\ labels_at w' a = Some (elements w1 s ++ [label])))
      /\ (forall sieve,
             SuchThat_gen g sieve genParams w
             = Ok (Some a)
                  (set_results
                     (<[a := GenResult.with_Sieve
                               (Some (conjoined (GenResult.Sieve r) sieve))
                               r]>
                        (results w1)) w1))
      /\ (forall shrinker,
             WithShrinker g shrinker genParams w
             = Ok (Some a)
                  (set_results
                     (<[a := GenResult.with_Shrinker
                               (match shrinker with
                                | None => NoShrinker
                                | Some _ => shrinker
                                end) r]>
                        (results w1)) w1)))
  /\ (forall (g : Gen) (genParams result a' : ptr) (w w1 w' : World),
         g genParams w = Ok result w1 ->
         (forall mapperVal out0,
             Map_gen g mapperVal out0 genParams w = Ok a' w' ->
             allocated w1 a' w')
         /\ (forall f resultType r,
                load_result result w1 = Ok r w1 ->
                (forall v, Retrieve r = Val (v, true) ->
                           FlatMap g f resultType genParams w
                           = f v genParams w1)
                /\ (forall v, Retrieve r = Val (v, false) ->
                              FlatMap g f resultType genParams w = Ok a' w' ->
                              allocated w1 a' w')))
  /\ (forall (gens : list Gen) (genParams a' : ptr) (w w' : World),
         CombineGens gens genParams w = Ok a' w' ->
         exists k rs w1,
           invoke_in_order genParams (take k gens) w = Ok rs w1
           /\ (allocated w1 a' w' \/ allocated_with_array w1 a' w'))
  /\ (forall (inner : World) (a' : ptr) (w' : World),
         allocated inner a' w' \/ allocated_with_array inner a' w' ->
         parameters w' = parameters inner
         /\ rands w' = rands inner
         /\ (forall (k : nat) (arr : list string),
                arrays inner !! k = Some arr -> arrays w' !! k = Some arr)
         /\ forall (b : nat) (r : GenResult.t),
             results inner !! b = Some r ->
             a' <> Some b /\ results w' !! b = Some r)
  /\ (forall (inner : World) (a : nat) (r : GenResult.t)
             (h : list (list string)),
         let w' := set_results (<[a := r]> (results inner))
                     (set_arrays h inner) in
         parameters w' = parameters inner
         /\ rands w' = rands inner
         /\ forall b : nat, b <> a -> results w' !! b = results inner !! b).
Proof.
  split; [|split; [|split; [|split]]].
  - intros g genParams a w w1 r Hg Hr s. split; [|split].
    + intros label. split; [|split].
      * intros k arr Hlt Hk Harr.
        exact (WithLabel_run g genParams a w w1 r Hg Hr label _ _
                 (append_in_place s label w1 k arr Hlt Hk Harr)).
      * intros Hge c.
        exact (WithLabel_run g genParams a w w1 r Hg Hr label _ _
                 (append_grows s label w1 Hge)).
      * intros Hv.
        destruct (WithLabel_labels g genParams a w w1 r label Hg Hr Hv)
          as (labels' & w1' & _ & _ & Hrun & Hlab).
        eexists. split; [exact Hrun|exact Hlab].
    + exact (SuchThat_gen_run g genParams a w w1 r Hg Hr).
    + exact (WithShrinker_run g genParams a w w1 r Hg Hr).
  - intros g genParams result a' w w1 w' Hg. split.
    + intros mapperVal out0 HM.
      exact (Map_gen_allocates g mapperVal out0 genParams result a' w w1 w'
               Hg HM).
    + intros f resultType r Hr. split; intros v Hv.
      * unfold FlatMap, bind. rewrite Hg, Hr, Hv. reflexivity.
      * unfold FlatMap, bind. rewrite Hg, Hr, Hv. cbn.
        apply new_result_allocated.
  - exact CombineGens_allocates.
  - intros inner a' w' [Ha|Ha].
    + destruct (allocated_frame inner a' w' Ha) as (Hp & Hr & Harr & Hres).
      split; [exact Hp|]. split; [exact Hr|]. split; [|exact Hres].
      intros k arr Hk. rewrite Harr. exact Hk.
    + exact (allocated_with_array_frame inner a' w' Ha).
  - intros inner a r h w'. split; [reflexivity|]. split; [reflexivity|].
    intros b Hb. cbn. apply list_lookup_insert_ne. congruence.
Qed.

Lemma combinators_update_or_construct_witness :
  let g := constGen (VInt 1) TInt ["n"] None NoShrinker in
  let w := world_with_source (fun _ => 0) in
  let double := mkFunc [TInt] [TInt]
                  (fun args => match args with
                               | [VInt z] => Val [VInt (2 * z)]
                               | _ => Err "not an int"
                               end) in
  returned_labels (WithLabel g "x" (Some 0%nat) w) = Some ["n"; "x"]
  /\ allocated (world_of (g (Some 0%nat) w)) (Some 1%nat)
       (world_of (Map_gen g double TInt (Some 0%nat) w)).
Proof.
  intros g w double.
  destruct combinators_update_or_construct as (Hupd & Hnew & _).
  split.
  - destruct (Hupd g (Some 0%nat) 0%nat w _ _ eq_refl eq_refl)
      as (Hlabel & _).
    rewrite (proj1 (proj2 (Hlabel "x")) ltac:(cbn; lia)).
    reflexivity.
  - exact (proj1 (Hnew g (Some 0%nat) _ (Some 1%nat) w _ _ eq_refl)
             double TInt eq_refl).
Defined.

(** ** Malformed function arguments *)

(** Every way [SuchThat] can end: with a generator only if the argument is
    well formed for the declared type the probe saw, and in the state the
    probe left; with a panic either before the probe (argument not a unary
    function) or in the state the probe left. *)
Lemma SuchThat_outcome (g : Gen) (f : any) (w : World) :
  match SuchThat g f w with
  | Ok derived w' =>
      exists t, probe_ResultType g w = Ok (Some t) w'
                /\ malformed true t f = false
  | Panic _ w' =>
      if not_unary_func f then w' = w
      else w' = world_of (probe_ResultType g w)
  end.
Proof.
  unfold SuchThat, malformed, not_unary_func.
  destruct f as [[]|checkVal]; try reflexivity.
  destruct (In checkVal) as [|in0 [|]]; try reflexivity.
  unfold bind. cbn [length Nat.eqb negb].
  destruct (probe_ResultType g w) as [[t|] w1|]; try reflexivity.
  destruct (AssignableTo t in0) eqn:Ea; cbn [negb]; try reflexivity.
  destruct (Out checkVal) as [|out0 [|]]; try reflexivity.
  destruct (Kind_eqb (kind_of out0) KBool) eqn:Ek; cbn [negb];
    try reflexivity.
  exists t. rewrite Ea. auto.
Qed.

Lemma Map_outcome (g : Gen) (f : any) (w : World) :
  match Map g f w with
  | Ok derived w' =>
      exists t, probe_ResultType g w = Ok (Some t) w'
                /\ malformed false t f = false
  | Panic _ w' =>
      if not_unary_func f then w' = w
      else w' = world_of (probe_ResultType g w)
  end.
Proof.
  unfold Map, malformed, not_unary_func.
  destruct f as [[]|mapperVal]; try reflexivity.
  destruct (In mapperVal) as [|in0 [|]]; try reflexivity.
  unfold bind. cbn [length Nat.eqb negb].
  destruct (probe_ResultType g w) as [[t|] w1|]; try reflexivity.
  destruct (AssignableTo t in0) eqn:Ea; cbn [negb]; try reflexivity.
  destruct (Out mapperVal) as [|out0 [|]]; try reflexivity.
  exists t. rewrite Ea. auto.
Qed.

Lemma malformed_not_unary (predicate : bool) (t : rtype) (f : any) :
  not_unary_func f = true -> malformed predicate t f = true.
Proof.
  unfold not_unary_func, malformed. destruct f as [v|fn]; [reflexivity|].
  destruct (In fn) as [|in0 [|]]; try reflexivity. discriminate.
Qed.

(** C8: a malformed argument of [SuchThat] or [Map] makes the construction
    panic, so that no derived generator exists in which it could show
    later.  An argument that is not a function of one parameter panics
    before the base generator is touched, in the state the construction
    started in; otherwise the construction ends, whatever its outcome, in
    the state one probe [g(DefaultGenParameters())] leaves, and panics if the
    argument is malformed for the declared type that probe returned.  A
    construction that returns a generator had a well-formed argument. *)
Theorem malformed_argument_panics_at_construction (g : Gen) (f : any)
    (w : World) :
  (not_unary_func f = true ->
   (exists msg, SuchThat g f w = Panic msg w)
   /\ (exists msg, Map g f w = Panic msg w))
  /\ (not_unary_func f = false ->
      world_of (SuchThat g f w) = world_of (probe_ResultType g w)
      /\ world_of (Map g f w) = world_of (probe_ResultType g w))
  /\ (forall t w1,
         probe_ResultType g w = Ok (Some t) w1 ->
         (malformed true t f = true ->
          exists msg, SuchThat g f w = Panic msg (if not_unary_func f
                                                  then w else w1))
         /\ (malformed false t f = true ->
             exists msg, Map g f w = Panic msg (if not_unary_func f
                                                then w else w1)))
  /\ (forall derived w',
         SuchThat g f w = Ok derived w' ->
         exists t, probe_ResultType g w = Ok (Some t) w'
                   /\ malformed true t f = false)
  /\ (forall derived w',
         Map g f w = Ok derived w' ->
         exists t, probe_ResultType g w = Ok (Some t) w'
                   /\ malformed false t f = false).
Proof.
  pose proof (SuchThat_outcome g f w) as HS.
  pose proof (Map_outcome g f w) as HM.
  split; [|split; [|split; [|split]]].
  - intros Hnu.
    pose proof (malformed_not_unary true) as Hmt.
    pose proof (malformed_not_unary false) as Hmf.
    rewrite Hnu in HS, HM. split.
    + destruct (SuchThat g f w) as [d w'|msg w'].
      * destruct HS as (t & _ & Hm). rewrite (Hmt t f Hnu) in Hm.
        discriminate.
      * subst w'. eauto.
    + destruct (Map g f w) as [d w'|msg w'].
      * destruct HM as (t & _ & Hm). rewrite (Hmf t f Hnu) in Hm.
        discriminate.
      * subst w'. eauto.
  - intros Hnu. rewrite Hnu in HS, HM. split.
    + destruct (SuchThat g f w) as [d w'|msg w']; cbn [world_of].
      * destruct HS as (t & -> & _). reflexivity.
      * exact HS.
    + destruct (Map g f w) as [d w'|msg w']; cbn [world_of].
      * destruct HM as (t & -> & _). reflexivity.
      * exact HM.
  - intros t w1 Hp. rewrite Hp in HS, HM. cbn [world_of] in HS, HM. split.
    + intros Hm. destruct (SuchThat g f w) as [d w'|msg w'].
      * destruct HS as (t' & [= <- <-] & Hm'). congruence.
      * exists msg. destruct (not_unary_func f); subst w'; reflexivity.
    + intros Hm. destruct (Map g f w) as [d w'|msg w'].
      * destruct HM as (t' & [= <- <-] & Hm'). congruence.
      * exists msg. destruct (not_unary_func f); subst w'; reflexivity.
  - intros derived w' E. rewrite E in HS. exact HS.
  - intros derived w' E. rewrite E in HM. exact HM.
Qed.

Lemma malformed_argument_panics_at_construction_witness :
  let g := constGen (VInt 1) TInt [] None NoShrinker in
  let on_strings := Fn (mkFunc [TString] [TBool] (fun _ => Val [VBool true])) in
  (exists msg, SuchThat g (Data (VInt 3)) empty_world = Panic msg empty_world)
  /\ (exists msg w1, Map g on_strings empty_world = Panic msg w1
                     /\ length (results w1) = 1%nat).
Proof.
  intros g on_strings. split.
  - exact (proj1 (proj1 (malformed_argument_panics_at_construction
                           g (Data (VInt 3)) empty_world) eq_refl)).
  - destruct (malformed_argument_panics_at_construction g on_strings
                empty_world) as (_ & _ & H & _).
    destruct (proj2 (H TInt _ eq_refl) eq_refl) as [msg E].
    exists msg. eexists. split; [exact E|reflexivity].
Defined.

(** * Further properties of the code *)

(** ** Drawing from the random source *)

Lemma Int63_at (a : nat) (r : Rand) (w : World) :
  rands w !! a = Some r ->
  Int63 (Some a) w = Ok (word63 r 0) (advance a r 1 w).
Proof.
  intros E. unfold Int63, word63, advance. rewrite E.
  rewrite Nat.add_0_r, Nat.add_1_r. reflexivity.
Qed.

Lemma rands_advance (a : nat) (r : Rand) (k : nat) (w : World) :
  rands w !! a = Some r ->
  rands (advance a r k w) !! a = Some (mkRand (words r) (cursor r + k)%nat).
Proof.
  intros E. cbn. apply list_lookup_insert_eq. eapply lookup_lt_Some, E.
Qed.

Lemma advance_advance (a : nat) (r : Rand) (j k : nat) (w : World) :
  advance a (mkRand (words r) (cursor r + j)%nat) k (advance a r j w)
  = advance a r (j + k) w.
Proof.
  unfold advance, set_rands. cbn.
  rewrite list_insert_insert_eq, Nat.add_assoc. reflexivity.
Qed.

Lemma draws_from_advance (w : World) (p : ptr) (a : nat) (r : Rand)
    (k : nat) :
  draws_from w p a r ->
  draws_from (advance a r k w) p a (mkRand (words r) (cursor r + k)%nat).
Proof.
  intros (ap & gp & -> & Hp & Hr & Ha). exists ap, gp.
  repeat split; try assumption. apply rands_advance, Ha.
Qed.

Lemma NextBool_at (w : World) (p : ptr) (a : nat) (r : Rand) :
  draws_from w p a r ->
  NextBool p w = Ok (Z.land (word63 r 0) 1 =? 0) (advance a r 1 w).
Proof.
  intros (ap & gp & -> & Hp & Hr & Ha).
  unfold NextBool, bind, load_parameters. rewrite Hp, Hr, (Int63_at a r w Ha).
  reflexivity.
Qed.

Lemma word63_range (r : Rand) (k : nat) : 0 <= word63 r k <= MaxInt64.
Proof. apply land_mask63_range. Qed.

(** X1: on a parameters object whose source is in state [r], [NextBool]
    consumes one word of the source, [NextInt64] and [NextUint64] two, and
    nothing else in the state changes; the values depend on those words
    only: [NextBool] is true when the first is even, [NextInt64] is the
    first negated when the second is even, [NextUint64] is twice the first
    xor the second. *)
Theorem draws_consume_words (w : World) (p : ptr) (a : nat) (r : Rand) :
  draws_from w p a r ->
  NextBool p w = Ok (Z.even (word63 r 0)) (advance a r 1 w)
  /\ NextInt64 p w
     = Ok (if Z.even (word63 r 1) then - word63 r 0 else word63 r 0)
          (advance a r 2 w)
  /\ NextUint64 p w
     = Ok (Z.lxor (2 * word63 r 0) (word63 r 1)) (advance a r 2 w).
Proof.
  intros Hd.
  assert (Heven : forall x, (Z.land x 1 =? 0) = Z.even x).
  { intros x. change 1 with (Z.ones 1). rewrite Z.land_ones by lia.
    change (2 ^ 1) with 2. rewrite Zeven_mod. reflexivity. }
  pose proof (NextBool_at w p a r Hd) as Hb.
  pose proof (draws_from_advance w p a r 1 Hd) as Hd1.
  pose proof (NextBool_at _ p a _ Hd1) as Hb1.
  rewrite advance_advance in Hb1.
  change (word63 {| words := words r; cursor := cursor r + 1 |} 0)
    with (Z.land (words r (cursor r + 1 + 0)%nat) (2 ^ 63 - 1)) in Hb1.
  rewrite Nat.add_0_r in Hb1. fold (word63 r 1) in Hb1.
  rewrite Heven in Hb, Hb1.
  destruct Hd as (ap & gp & -> & Hp & Hr & Ha).
  split; [exact Hb|]. split.
  - apply (NextInt64_draws (Some ap) gp w (advance a r 1 w)).
    + unfold load_parameters. now rewrite Hp.
    + rewrite Hr. apply Int63_at, Ha.
    + exact Hb1.
  - unfold NextUint64, bind, load_parameters. rewrite Hp, Hr.
    rewrite (Int63_at a r w Ha).
    rewrite (Int63_at a _ _ (rands_advance a r 1 w Ha)).
    rewrite advance_advance. unfold ret. f_equal.
    change (word63 {| words := words r; cursor := cursor r + 1 |} 0)
      with (Z.land (words r (cursor r + 1 + 0)%nat) (2 ^ 63 - 1)).
    rewrite Nat.add_0_r. fold (word63 r 1).
    pose proof (word63_range r 0) as H0. pose proof (word63_range r 1) as H1.
    unfold MaxInt64 in *. unfold uint64.
    rewrite (Z.mod_small (word63 r 0)) by lia.
    rewrite (Z.mod_small (word63 r 1)) by lia.
    rewrite Z.shiftl_mul_pow2 by lia. rewrite Z.mod_small by lia.
    f_equal. lia.
Qed.

Lemma draws_consume_words_witness :
  let w := world_with_source (two_words 6 3) in
  (exists w', NextBool (Some 0%nat) w = Ok true w')
  /\ (exists w', NextInt64 (Some 0%nat) w = Ok 6 w')
  /\ (exists w', NextUint64 (Some 0%nat) w = Ok 15 w').
Proof.
  intros w.
  assert (Hd : draws_from w (Some 0%nat) 0 (mkRand (two_words 6 3) 0)).
  { exists 0%nat, (mkGenParameters 100 1000 (Some 0%nat)).
    repeat split; reflexivity. }
  destruct (draws_consume_words w (Some 0%nat) 0 _ Hd) as (Hb & Hi & Hu).
  split; [|split]; eexists.
  - rewrite Hb. reflexivity.
  - rewrite Hi. reflexivity.
  - rewrite Hu. reflexivity.
Defined.

Lemma lxor_uint64_range (x y : Z) :
  0 <= x < 2 ^ 64 -> 0 <= y < 2 ^ 64 -> 0 <= Z.lxor x y < 2 ^ 64.
Proof.
  intros Hx Hy.
  assert (E : Z.lxor x y = Z.lxor x y mod 2 ^ 64).
  { apply Z.bits_inj'. intros n Hn.
    destruct (Z.lt_ge_cases n 64) as [Hlt|Hge].
    - rewrite Z.mod_pow2_bits_low by lia. reflexivity.
    - rewrite Z.mod_pow2_bits_high by lia. rewrite Z.lxor_spec.
      rewrite <- (Z.mod_small x (2 ^ 64)) by lia.
      rewrite <- (Z.mod_small y (2 ^ 64)) by lia.
      rewrite !Z.mod_pow2_bits_high by lia. reflexivity. }
  rewrite E. apply Z.mod_pos_bound. lia.
Qed.

Lemma lxor_top_bit (b : Z) :
  0 <= b < 2 ^ 63 -> Z.lxor (2 ^ 63) b = 2 ^ 63 + b.
Proof.
  intros Hb. symmetry. apply Z.add_nocarry_lxor.
  apply Z.bits_inj'. intros n Hn.
  rewrite Z.land_spec, Z.bits_0, Z.pow2_bits_eqb by lia.
  destruct (Z.eqb_spec 63 n) as [<-|]; [|reflexivity].
  rewrite <- (Z.mod_small b (2 ^ 63)) by lia.
  rewrite Z.mod_pow2_bits_high by lia. reflexivity.
Qed.

Lemma NextUint64_range (p : ptr) (w w' : World) (u : Z) :
  NextUint64 p w = Ok u w' -> 0 <= u < 2 ^ 64.
Proof.
  unfold NextUint64, bind.
  destruct (load_parameters p w) as [gp w0|]; [|discriminate].
  destruct (Int63 (Rng gp) w0) as [first w1|]; [|discriminate].
  destruct (Int63 (Rng gp) w1) as [second w2|]; [|discriminate].
  unfold ret. intros [= <- _].
  apply lxor_uint64_range; unfold uint64; apply Z.mod_pos_bound; lia.
Qed.

(** X2: [NextUint64] covers the whole unsigned 64-bit range and nothing
    else: it returns [u] for some parameters object and some state of its
    source if and only if [0 <= u < 2^64]. *)
Theorem NextUint64_span (u : Z) :
  0 <= u < 2 ^ 64 <->
  exists (p : ptr) (w w' : World), NextUint64 p w = Ok u w'.
Proof.
  split.
  - intros Hu.
    set (first := if u <? 2 ^ 63 then 0 else 2 ^ 62).
    set (second := u mod 2 ^ 63).
    set (w := world_with_source (two_words first second)).
    assert (Hd : draws_from w (Some 0%nat) 0 (mkRand (two_words first second) 0)).
    { exists 0%nat, (mkGenParameters 100 1000 (Some 0%nat)).
      repeat split; reflexivity. }
    destruct (draws_consume_words w (Some 0%nat) 0 _ Hd) as (_ & _ & Hrun).
    exists (Some 0%nat), w, (advance 0 (mkRand (two_words first second) 0) 2 w).
    rewrite Hrun. f_equal.
    assert (H0 : word63 (mkRand (two_words first second) 0) 0 = first).
    { unfold word63. cbn. apply land_mask63_small. unfold first, MaxInt64.
      destruct (u <? 2 ^ 63); lia. }
    assert (H1 : word63 (mkRand (two_words first second) 0) 1 = second).
    { unfold word63. cbn. apply land_mask63_small. unfold second, MaxInt64.
      pose proof (Z.mod_pos_bound u (2 ^ 63) ltac:(lia)). lia. }
    rewrite H0, H1. unfold first, second.
    destruct (Z.ltb_spec u (2 ^ 63)) as [Hlt|Hge].
    + rewrite Z.mod_small by lia. apply Z.lxor_0_l.
    + replace (u mod 2 ^ 63) with (u - 2 ^ 63)
        by (apply Zmod_unique with (q := 1); lia).
      change (2 * 2 ^ 62) with (2 ^ 63). rewrite lxor_top_bit by lia. lia.
  - intros (p & w & w' & H). exact (NextUint64_range p w w' u H).
Qed.

(** ** Parameters objects *)

Lemma Int63_parameters (rng : ptr) (w w' : World) (v : Z) :
  Int63 rng w = Ok v w' -> parameters w' = parameters w.
Proof.
  unfold Int63. destruct rng as [a|]; [|discriminate].
  destruct (rands w !! a); [|discriminate]. now intros [= _ <-].
Qed.

Lemma NextBool_same_source (w : World) (a1 a2 : nat)
    (g1 g2 : GenParameters) :
  parameters w !! a1 = Some g1 ->
  parameters w !! a2 = Some g2 ->
  Rng g1 = Rng g2 ->
  NextBool (Some a1) w = NextBool (Some a2) w.
Proof.
  intros H1 H2 HR. unfold NextBool, bind, load_parameters.
  rewrite H1, H2, HR. reflexivity.
Qed.

Lemma NextInt64_same_source (w : World) (a1 a2 : nat)
    (g1 g2 : GenParameters) :
  parameters w !! a1 = Some g1 ->
  parameters w !! a2 = Some g2 ->
  Rng g1 = Rng g2 ->
  NextInt64 (Some a1) w = NextInt64 (Some a2) w.
Proof.
  intros H1 H2 HR. unfold NextInt64.
  unfold bind at 1 4. unfold load_parameters. rewrite H1, H2, HR.
  unfold bind at 1 3.
  destruct (Int63 (Rng g2) w) as [v w1|] eqn:Hv; [|reflexivity].
  pose proof (Int63_parameters _ _ _ _ Hv) as Hsame.
  unfold bind.
  rewrite (NextBool_same_source w1 a1 a2 g1 g2) by congruence.
  reflexivity.
Qed.

(** X3: [WithSize] on a valid receiver returns a new parameters object that
    differs from the receiver in its size only; the receiver and every
    other stored object are unchanged, and the copy holds the same random
    source as the receiver, so a draw through the copy is the draw the
    receiver would have made. *)
Theorem WithSize_copies_and_shares_source (w : World) (ap : nat)
    (gp : GenParameters) (size : Z) :
  parameters w !! ap = Some gp ->
  let copy := length (parameters w) in
  exists w',
    WithSize (Some ap) size w = Ok (Some copy) w'
    /\ copy <> ap
    /\ parameters w' !! copy
       = Some (mkGenParameters size (MaxShrinkCount gp) (Rng gp))
    /\ (forall b x, parameters w !! b = Some x -> parameters w' !! b = Some x)
    /\ results w' = results w
    /\ rands w' = rands w
    /\ NextBool (Some copy) w' = NextBool (Some ap) w'
    /\ NextInt64 (Some copy) w' = NextInt64 (Some ap) w'
    /\ NextUint64 (Some copy) w' = NextUint64 (Some ap) w'.
Proof.
  intros Hp copy.
  pose proof (lookup_lt_Some _ _ _ Hp) as Hlt.
  eexists. split.
  { unfold WithSize, bind, load_parameters. rewrite Hp. reflexivity. }
  set (w' := set_parameters _ w).
  assert (Hcopy : parameters w' !! copy
                  = Some (mkGenParameters size (MaxShrinkCount gp) (Rng gp)))
    by (apply list_lookup_middle; reflexivity).
  assert (Hold : parameters w' !! ap = Some gp)
    by (cbn; rewrite lookup_app_l by exact Hlt; exact Hp).
  assert (HB : NextBool (Some copy) w' = NextBool (Some ap) w').
  { unfold NextBool, bind, load_parameters. rewrite Hcopy, Hold.
    reflexivity. }
  split; [unfold copy; lia|]. split; [exact Hcopy|]. split.
  { intros b x Hb. cbn. rewrite lookup_app_l by (eapply lookup_lt_Some, Hb).
    exact Hb. }
  split; [reflexivity|]. split; [reflexivity|]. split; [exact HB|]. split.
  - exact (NextInt64_same_source w' copy ap _ _ Hcopy Hold eq_refl).
  - unfold NextUint64, bind, load_parameters. rewrite Hcopy, Hold.
    reflexivity.
Qed.

Lemma WithSize_copies_and_shares_source_witness :
  let w := world_with_source (two_words 6 3) in
  exists w',
    WithSize (Some 0%nat) 7 w = Ok (Some 1%nat) w'
    /\ parameters w' !! 1%nat = Some (mkGenParameters 7 1000 (Some 0%nat))
    /\ NextInt64 (Some 1%nat) w' = NextInt64 (Some 0%nat) w'.
Proof.
  intros w.
  destruct (WithSize_copies_and_shares_source w 0
              (mkGenParameters 100 1000 (Some 0%nat)) 7 eq_refl)
    as (w' & Hrun & _ & Hcopy & _ & _ & _ & _ & Hint & _).
  exists w'. split; [exact Hrun|]. split; [exact Hcopy|exact Hint].
Defined.

(** X4: two calls of [DefaultGenParameters] never panic and return two
    distinct new parameters objects, each of size 100 and shrink count 1000
    and each with a new source of its own, seeded from consecutive readings
    of the clock; the objects that existed are unchanged, and drawing
    through the first object does not change what the second is going to
    draw. *)
Theorem DefaultGenParameters_fresh_independent (w : World) :
  exists (p1 p2 a1 a2 : nat) (w1 w2 : World),
    DefaultGenParameters w = Ok (Some p1) w1
    /\ DefaultGenParameters w1 = Ok (Some p2) w2
    /\ p1 <> p2 /\ a1 <> a2
    /\ parameters w !! p1 = None /\ parameters w !! p2 = None
    /\ rands w !! a1 = None /\ rands w !! a2 = None
    /\ parameters w2 !! p1 = Some (mkGenParameters 100 1000 (Some a1))
    /\ parameters w2 !! p2 = Some (mkGenParameters 100 1000 (Some a2))
    /\ rands w2 !! a1
       = Some (mkRand (NewSource w (UnixNano w (readings w))) 0)
    /\ rands w2 !! a2
       = Some (mkRand (NewSource w (UnixNano w (S (readings w)))) 0)
    /\ results w2 = results w
    /\ (forall b x, parameters w !! b = Some x -> parameters w2 !! b = Some x)
    /\ (forall b x, rands w !! b = Some x -> rands w2 !! b = Some x)
    /\ (forall n w3,
           NextInt64 (Some p1) w2 = Ok n w3 ->
           value_of (NextInt64 (Some p2) w3)
           = value_of (NextInt64 (Some p2) w2)).
Proof.
  set (r1 := mkRand (NewSource w (UnixNano w (readings w))) 0).
  set (r2 := mkRand (NewSource w (UnixNano w (S (readings w)))) 0).
  set (g1 := mkGenParameters 100 1000 (Some (length (rands w)))).
  set (g2 := mkGenParameters 100 1000 (Some (S (length (rands w))))).
  exists (length (parameters w)), (S (length (parameters w))),
    (length (rands w)), (S (length (rands w))).
  eexists _, _. split; [reflexivity|].
  split.
  { unfold DefaultGenParameters, bind, new_rand, new_parameters. cbn.
    rewrite !length_app. cbn. rewrite !Nat.add_1_r. reflexivity. }
  cbn [parameters rands results set_parameters set_rands set_readings].
  assert (Hp1 : ((parameters w ++ [g1]) ++ [g2]) !! length (parameters w)
                = Some g1).
  { rewrite lookup_app_l by (rewrite length_app; cbn; lia).
    apply list_lookup_middle. reflexivity. }
  assert (Hp2 : ((parameters w ++ [g1]) ++ [g2]) !! S (length (parameters w))
                = Some g2).
  { apply list_lookup_middle. rewrite length_app. cbn. lia. }
  assert (Ha1 : ((rands w ++ [r1]) ++ [r2]) !! length (rands w) = Some r1).
  { rewrite lookup_app_l by (rewrite length_app; cbn; lia).
    apply list_lookup_middle. reflexivity. }
  assert (Ha2 : ((rands w ++ [r1]) ++ [r2]) !! S (length (rands w))
                = Some r2).
  { apply list_lookup_middle. rewrite length_app. cbn. lia. }
  split; [lia|]. split; [lia|].
  split; [apply lookup_ge_None; lia|]. split; [apply lookup_ge_None; lia|].
  split; [apply lookup_ge_None; lia|]. split; [apply lookup_ge_None; lia|].
  split; [exact Hp1|]. split; [exact Hp2|].
  split; [exact Ha1|]. split; [exact Ha2|]. split; [reflexivity|].
  split.
  { intros b x Hb. pose proof (lookup_lt_Some _ _ _ Hb).
    rewrite <- app_assoc, lookup_app_l by lia. exact Hb. }
  split.
  { intros b x Hb. pose proof (lookup_lt_Some _ _ _ Hb).
    rewrite <- app_assoc, lookup_app_l by lia. exact Hb. }
  intros n w3 Hn.
  match type of Hn with NextInt64 _ ?w = _ => set (w2 := w) in * end.
  assert (Hd1 : draws_from w2 (Some (length (parameters w)))
                  (length (rands w)) r1)
    by (exists (length (parameters w)), g1; repeat split; assumption).
  assert (Hd2 : draws_from w2 (Some (S (length (parameters w))))
                  (S (length (rands w))) r2)
    by (exists (S (length (parameters w))), g2; repeat split; assumption).
  destruct (draws_consume_words _ _ _ _ Hd1) as (_ & Hi1 & _).
  rewrite Hi1 in Hn. injection Hn as _ <-.
  assert (Hd3 : draws_from (advance (length (rands w)) r1 2 w2)
                  (Some (S (length (parameters w))))
                  (S (length (rands w))) r2).
  { exists (S (length (parameters w))), g2. repeat split; try assumption.
    cbn. rewrite list_lookup_insert_ne by lia. exact Ha2. }
  destruct (draws_consume_words _ _ _ _ Hd2) as (_ & -> & _).
  destruct (draws_consume_words _ _ _ _ Hd3) as (_ & -> & _).
  reflexivity.
Qed.

(** ** Chains of the combinators that update in place *)

Lemma with_Labels_same (r : GenResult.t) :
  GenResult.with_Labels (GenResult.Labels r) r = r.
Proof. destruct r. reflexivity. Qed.

(** X5: a chain [g.WithLabel(l1)...WithLabel(ln)] on a result with valid
    labels returns the object the base generator returned, and its labels
    then read the labels the base generator gave it followed by
    [l1 ... ln], in that order.  Of the result objects only that one is
    rewritten, and only in its labels; parameters and sources are
    unchanged; of the backing arrays that existed only the one of the base
    result's labels can have been written, so results whose labels share
    it can see the chain's labels. *)
Theorem WithLabel_chain (labels : list string) :
  forall (g : Gen) (genParams : ptr) (a : nat) (w w1 : World)
         (r : GenResult.t),
    g genParams w = Ok (Some a) w1 ->
    results w1 !! a = Some r ->
    valid_slice w1 (GenResult.Labels r) ->
    exists s' w',
      fold_left WithLabel labels g genParams w = Ok (Some a) w'
      /\ results w' = <[a := GenResult.with_Labels s' r]> (results w1)
      /\ valid_slice w' s'
      /\ elements w' s' = elements w1 (GenResult.Labels r) ++ labels
      /\ parameters w' = parameters w1
      /\ rands w' = rands w1
      /\ (length (arrays w1) <= length (arrays w'))%nat
      /\ (forall k,
             Some k <> array (GenResult.Labels r) ->
             (k < length (arrays w1))%nat ->
             arrays w' !! k = arrays w1 !! k).
Proof.
  induction labels as [|label rest IH]; intros g genParams a w w1 r Hg Hr Hv.
  - exists (GenResult.Labels r), w1. cbn [fold_left].
    rewrite app_nil_r, with_Labels_same, (list_insert_id _ _ _ Hr).
    split; [exact Hg|]. split; [reflexivity|]. split; [exact Hv|].
    split; [reflexivity|]. split; [reflexivity|]. split; [reflexivity|].
    split; [lia|]. auto.
  - cbn [fold_left].
    destruct (WithLabel_labels g genParams a w w1 r label Hg Hr Hv)
      as (s1 & w1' & Happ & Hv1 & Hrun & _).
    pose proof (append_elements _ label _ Hv) as (s1' & w1'' & Happ' & _ & He).
    rewrite Happ in Happ'. injection Happ' as <- <-.
    pose proof (append_inv _ _ _ _ _ Happ) as Hw1'.
    assert (Hr' : results w1' !! a = Some r) by (rewrite Hw1'; exact Hr).
    destruct (append_other_arrays _ _ _ _ _ Happ) as (Hlen & Hkeep & Harr).
    set (w2 := set_results
                 (<[a := GenResult.with_Labels s1 r]> (results w1')) w1')
      in *.
    destruct (IH (WithLabel g label) genParams a w w2
                (GenResult.with_Labels s1 r) Hrun
                (lookup_after_store a w1' r _ Hr') Hv1)
      as (s' & w' & Hfold & Hres & Hv' & Hel & Hp & Hrd & Hlen' & Hkeep').
    exists s', w'. split; [exact Hfold|]. split.
    { rewrite Hres. cbn. rewrite list_insert_insert_eq.
      rewrite Hw1'. reflexivity. }
    split; [exact Hv'|]. split.
    { rewrite Hel.
      change (elements w2 (GenResult.Labels (GenResult.with_Labels s1 r)))
        with (elements w1' s1).
      rewrite He, <- app_assoc. reflexivity. }
    split; [rewrite Hp; unfold w2; cbn; rewrite Hw1'; reflexivity|].
    split; [rewrite Hrd; unfold w2; cbn; rewrite Hw1'; reflexivity|].
    cbn [arrays w2 set_results] in Hlen', Hkeep'.
    split; [lia|].
    intros k Hk Hlt. rewrite Hkeep'.
    + apply Hkeep; assumption.
    + cbn. destruct Harr as [-> | ->]; [exact Hk|]. intros [= ->]. lia.
    + lia.
Qed.

Lemma WithLabel_chain_witness :
  let g := constGen (VInt 1) TInt ["n"] None NoShrinker in
  returned_labels (WithLabel (WithLabel g "a") "b" (Some 0%nat)
                     (world_with_source (fun _ => 0)))
  = Some ["n"; "a"; "b"].
Proof.
  intros g.
  change (WithLabel (WithLabel g "a") "b")
    with (fold_left WithLabel ["a"; "b"] g).
  destruct (WithLabel_chain ["a"; "b"] g (Some 0%nat) 0
              (world_with_source (fun _ => 0)) _ _ eq_refl eq_refl)
    as (s' & w' & Hfold & Hres & _ & Hel & _).
  - split; [cbn; lia|]. right. exists 0%nat, ["n"].
    repeat split; cbn; lia.
  - rewrite Hfold. unfold returned_labels, labels_at. rewrite Hres.
    cbn. rewrite Hel. reflexivity.
Defined.

(** X6: [WithShrinker] overrides: [g.WithShrinker(s1).WithShrinker(s2)]
    runs exactly as [g.WithShrinker(s2)], whatever [s1] was, and the
    shrinker it leaves in the result is never nil ([NoShrinker] stands in
    for a nil argument). *)
Theorem WithShrinker_overrides (g : Gen) (s1 s2 : Shrinker)
    (genParams : ptr) (a : nat) (w w1 : World) (r : GenResult.t) :
  g genParams w = Ok (Some a) w1 ->
  results w1 !! a = Some r ->
  WithShrinker (WithShrinker g s1) s2 genParams w
  = WithShrinker g s2 genParams w
  /\ exists r' shrink,
      returned (WithShrinker g s2 genParams w) = Some r'
      /\ GenResult.Shrinker r' = Some shrink
      /\ (s2 = None -> GenResult.Shrinker r' = NoShrinker)
      /\ (s2 <> None -> GenResult.Shrinker r' = s2).
Proof.
  intros Hg Hr.
  pose proof (WithShrinker_run g genParams a w w1 r Hg Hr) as Hrun.
  split.
  - rewrite (WithShrinker_run _ genParams a w _ _ (Hrun s1)
               (lookup_after_store a w1 r _ Hr) s2).
    rewrite (Hrun s2). cbn. rewrite list_insert_insert_eq. reflexivity.
  - rewrite (Hrun s2). cbn [returned].
    rewrite (lookup_after_store a w1 r _ Hr).
    destruct s2 as [shrink|].
    + exists (GenResult.with_Shrinker (Some shrink) r), shrink.
      repeat split; try reflexivity. intros [=].
    + eexists _, _. repeat split; try reflexivity. intros H. now elim H.
Qed.

Lemma WithShrinker_overrides_witness :
  let g := constGen (VInt 1) TInt [] None None in
  let halves : Shrinker :=
    Some (fun v => match v with VInt z => [VInt (z / 2)] | _ => [] end) in
  WithShrinker (WithShrinker g halves) None (Some 0%nat)
    (world_with_source (fun _ => 0))
  = WithShrinker g None (Some 0%nat) (world_with_source (fun _ => 0)).
Proof.
  intros g halves.
  exact (proj1 (WithShrinker_overrides g halves None (Some 0%nat) 0
                  (world_with_source (fun _ => 0)) _ _ eq_refl eq_refl)).
Defined.

(** X7: the three in-place combinators write different fields, so they
    commute: labelling, filtering and setting the shrinker give the same
    result object and the same state in either order. *)
Theorem in_place_combinators_commute (g : Gen) (label : string)
    (shrinker : Shrinker) (sieve : iface -> res bool) (genParams : ptr)
    (a : nat) (w w1 : World) (r : GenResult.t) :
  g genParams w = Ok (Some a) w1 ->
  results w1 !! a = Some r ->
  WithLabel (WithShrinker g shrinker) label genParams w
  = WithShrinker (WithLabel g label) shrinker genParams w
  /\ WithLabel (SuchThat_gen g sieve) label genParams w
     = SuchThat_gen (WithLabel g label) sieve genParams w
  /\ WithShrinker (SuchThat_gen g sieve) shrinker genParams w
     = SuchThat_gen (WithShrinker g shrinker) sieve genParams w.
Proof.
  intros Hg Hr.
  destruct (append_returns (GenResult.Labels r) label w1)
    as (s' & w1' & Happ).
  assert (Hres : results w1' = results w1)
    by (rewrite (append_inv _ _ _ _ _ Happ); reflexivity).
  pose proof (WithLabel_run g genParams a w w1 r Hg Hr label s' w1' Happ)
    as HL.
  pose proof (WithShrinker_run g genParams a w w1 r Hg Hr shrinker) as HS.
  pose proof (SuchThat_gen_run g genParams a w w1 r Hg Hr sieve) as HT.
  pose proof (fun r' => lookup_after_store a w1 r r' Hr) as Hat.
  assert (Hat' : forall r', results (set_results
                                       (<[a := r']> (results w1')) w1') !! a
                            = Some r').
  { intros r'. apply (lookup_after_store a w1' r). rewrite Hres. exact Hr. }
  assert (Happ' : forall h,
             append (GenResult.Labels r) label (set_results h w1)
             = Ok s' (set_results h w1'))
    by (intros h; rewrite append_set_results, Happ; reflexivity).
  split; [|split].
  - rewrite (WithLabel_run _ genParams a w _ _ HS (Hat _) label s' _
               (Happ' _)).
    rewrite (WithShrinker_run _ genParams a w _ _ HL (Hat' _) shrinker).
    cbn. rewrite !list_insert_insert_eq, Hres. reflexivity.
  - rewrite (WithLabel_run _ genParams a w _ _ HT (Hat _) label s' _
               (Happ' _)).
    rewrite (SuchThat_gen_run _ genParams a w _ _ HL (Hat' _) sieve).
    cbn. rewrite !list_insert_insert_eq, Hres. reflexivity.
  - rewrite (WithShrinker_run _ genParams a w _ _ HT (Hat _) shrinker).
    rewrite (SuchThat_gen_run _ genParams a w _ _ HS (Hat _) sieve).
    cbn. rewrite !list_insert_insert_eq. reflexivity.
Qed.

Lemma in_place_combinators_commute_witness :
  let g := constGen (VInt 1) TInt ["n"] None None in
  WithLabel (WithShrinker g None) "x" (Some 0%nat)
    (world_with_source (fun _ => 0))
  = WithShrinker (WithLabel g "x") None (Some 0%nat)
      (world_with_source (fun _ => 0)).
Proof.
  intros g.
  exact (proj1 (in_place_combinators_commute g "x" None (fun _ => Val true)
                  (Some 0%nat) 0 (world_with_source (fun _ => 0)) _ _
                  eq_refl eq_refl)).
Defined.

(** X8: because [WithLabel] writes into the object the base generator
    returns, a base generator that hands out the same object on every
    invocation accumulates labels: after two invocations of
    [g.WithLabel(label)] the object carries the label twice. *)
Theorem WithLabel_accumulates_on_reused_result (g : Gen) (a : nat)
    (label : string) (genParams : ptr) (w : World) (r : GenResult.t) :
  (forall w0 r0, results w0 !! a = Some r0 -> g genParams w0 = Ok (Some a) w0) ->
  results w !! a = Some r ->
  valid_slice w (GenResult.Labels r) ->
  exists w1 w2,
    WithLabel g label genParams w = Ok (Some a) w1
    /\ WithLabel g label genParams w1 = Ok (Some a) w2
    /\ labels_at w1 a = Some (elements w (GenResult.Labels r) ++ [label])
    /\ labels_at w2 a
       = Some (elements w (GenResult.Labels r) ++ [label; label]).
Proof.
  intros Hreuse Hr Hv.
  destruct (WithLabel_labels g genParams a w w r label (Hreuse w r Hr) Hr Hv)
    as (s1 & w1' & Happ1 & Hv1 & Hrun1 & Hlab1).
  assert (Hr1' : results w1' !! a = Some r)
    by (rewrite (append_inv _ _ _ _ _ Happ1); exact Hr).
  set (w1 := set_results
               (<[a := GenResult.with_Labels s1 r]> (results w1')) w1') in *.
  pose proof (lookup_after_store a w1' r (GenResult.with_Labels s1 r) Hr1')
    as Hr1. fold w1 in Hr1.
  destruct (WithLabel_labels g genParams a w1 w1 _ label (Hreuse w1 _ Hr1)
              Hr1 Hv1) as (s2 & w2' & _ & _ & Hrun2 & Hlab2).
  eexists _, _. split; [exact Hrun1|]. split; [exact Hrun2|].
  split; [exact Hlab1|]. rewrite Hlab2.
  unfold labels_at in Hlab1. rewrite Hr1 in Hlab1. injection Hlab1 as Hel.
  cbn [GenResult.Labels GenResult.with_Labels] in *.
  rewrite Hel, <- app_assoc. reflexivity.
Qed.

Lemma WithLabel_accumulates_on_reused_result_witness :
  let r := GenResult.mk (mkSlice (Some 0%nat) 0 0 0) NoShrinker (Some TInt)
                        (VInt 1) None in
  let w := set_arrays [[]] (set_results [r] empty_world) in
  exists w1 w2,
    WithLabel (sharedGen 0) "x" None w = Ok (Some 0%nat) w1
    /\ WithLabel (sharedGen 0) "x" None w1 = Ok (Some 0%nat) w2
    /\ labels_at w2 0 = Some ["x"; "x"].
Proof.
  intros r w.
  destruct (WithLabel_accumulates_on_reused_result (sharedGen 0) 0 "x" None
              w r) as (w1 & w2 & H1 & H2 & _ & H3).
  - intros w0 r0 E. unfold sharedGen. rewrite E. reflexivity.
  - reflexivity.
  - split; [cbn; lia|]. left. reflexivity.
  - exists w1, w2. split; [exact H1|]. split; [exact H2|exact H3].
Defined.

Lemma elements_written_in_place (s : Slice) (x : string) (w w' : World)
    (k : nat) (arr : list string) :
  (len s < cap s)%nat ->
  array s = Some k ->
  arrays w !! k = Some arr ->
  (offset s + cap s <= length arr)%nat ->
  arrays w' !! k = Some (<[(offset s + len s)%nat := x]> arr) ->
  elements w' (mkSlice (Some k) (offset s) (S (len s)) (cap s))
  = elements w s ++ [x].
Proof.
  intros Hlt Hk Harr Hin Harr'. unfold elements. cbn.
  rewrite Hk, Harr, Harr'. rewrite drop_insert_ge by lia.
  replace (offset s + len s - offset s)%nat with (len s) by lia.
  rewrite (take_S_r _ (len s) x).
  - rewrite take_insert_ge by lia. reflexivity.
  - apply list_lookup_insert_eq. rewrite length_drop. lia.
Qed.

(** X19: [append] in [WithLabel] writes into the backing array when the
    labels have spare capacity, so two results whose labels are the same
    slice share the cell after its last element: labelling the first
    result and then the second leaves both carrying the second label; the
    first result's own label has been overwritten. *)
Theorem WithLabel_overwrites_through_shared_array (ga gb : Gen) (a b : nat)
    (x y : string) (genParams : ptr) (w : World) (ra rb : GenResult.t) :
  (forall w0 r0, results w0 !! a = Some r0 -> ga genParams w0 = Ok (Some a) w0) ->
  (forall w0 r0, results w0 !! b = Some r0 -> gb genParams w0 = Ok (Some b) w0) ->
  a <> b ->
  results w !! a = Some ra ->
  results w !! b = Some rb ->
  GenResult.Labels rb = GenResult.Labels ra ->
  valid_slice w (GenResult.Labels ra) ->
  (len (GenResult.Labels ra) < cap (GenResult.Labels ra))%nat ->
  exists w1 w2,
    WithLabel ga x genParams w = Ok (Some a) w1
    /\ labels_at w1 a = Some (elements w (GenResult.Labels ra) ++ [x])
    /\ WithLabel gb y genParams w1 = Ok (Some b) w2
    /\ labels_at w2 b = Some (elements w (GenResult.Labels ra) ++ [y])
    /\ labels_at w2 a = Some (elements w (GenResult.Labels ra) ++ [y]).
Proof.
  intros Hga Hgb Hab Ha Hb Hshare [Hle Hvalid] Hlt.
  set (s := GenResult.Labels ra) in *.
  destruct Hvalid as [Hcap|(k & arr & Hk & Harr & Hin)]; [lia|].
  pose proof (lookup_lt_Some _ _ _ Harr) as Hkl.
  set (arr1 := <[(offset s + len s)%nat := x]> arr).
  set (arr2 := <[(offset s + len s)%nat := y]> arr).
  set (s' := mkSlice (Some k) (offset s) (S (len s)) (cap s)).
  set (w1 := set_results (<[a := GenResult.with_Labels s' ra]> (results w))
               (set_arrays (<[k := arr1]> (arrays w)) w)).
  set (w2 := set_results
               (<[b := GenResult.with_Labels s' rb]> (results w1))
               (set_arrays (<[k := arr2]> (arrays w)) w1)).
  assert (Hrun1 : WithLabel ga x genParams w = Ok (Some a) w1).
  { exact (WithLabel_run ga genParams a w w ra (Hga w ra Ha) Ha x _ _
             (append_in_place s x w k arr Hlt Hk Harr)). }
  assert (Ha1 : results w1 !! a = Some (GenResult.with_Labels s' ra))
    by (apply list_lookup_insert_eq; eapply lookup_lt_Some, Ha).
  assert (Hb1 : results w1 !! b = Some rb)
    by (cbn; rewrite list_lookup_insert_ne by exact Hab; exact Hb).
  assert (Harr1 : arrays w1 !! k = Some arr1)
    by (apply list_lookup_insert_eq; exact Hkl).
  assert (Hrun2 : WithLabel gb y genParams w1 = Ok (Some b) w2).
  { pose proof (WithLabel_run gb genParams b w1 w1 rb (Hgb w1 rb Hb1) Hb1 y
                  _ _ (append_in_place (GenResult.Labels rb) y w1 k arr1
                         ltac:(rewrite Hshare; exact Hlt)
                         ltac:(rewrite Hshare; exact Hk) Harr1)) as Hrun.
    rewrite Hrun. rewrite Hshare. fold s. unfold w2, arr1, arr2. cbn.
    rewrite !list_insert_insert_eq. reflexivity. }
  assert (Harr2 : arrays w2 !! k = Some arr2)
    by (apply list_lookup_insert_eq; exact Hkl).
  exists w1, w2. split; [exact Hrun1|]. split.
  { unfold labels_at. rewrite Ha1. cbn [GenResult.Labels GenResult.with_Labels].
    f_equal. exact (elements_written_in_place s x w w1 k arr Hlt Hk Harr Hin
                      Harr1). }
  split; [exact Hrun2|].
  assert (Hel2 : elements w2 s' = elements w s ++ [y])
    by exact (elements_written_in_place s y w w2 k arr Hlt Hk Harr Hin Harr2).
  split.
  - unfold labels_at.
    replace (results w2 !! b) with (Some (GenResult.with_Labels s' rb))
      by (symmetry; apply list_lookup_insert_eq;
          eapply lookup_lt_Some, Hb1).
    cbn [GenResult.Labels GenResult.with_Labels]. rewrite Hel2. reflexivity.
  - unfold labels_at.
    replace (results w2 !! a) with (Some (GenResult.with_Labels s' ra))
      by (symmetry; cbn; rewrite list_lookup_insert_ne by congruence;
          exact Ha1).
    cbn [GenResult.Labels GenResult.with_Labels]. rewrite Hel2. reflexivity.
Qed.

Lemma WithLabel_overwrites_through_shared_array_witness :
  let shared := mkSlice (Some 0%nat) 0 1 2 in
  let r := GenResult.mk shared NoShrinker (Some TInt) (VInt 1) None in
  let w := set_arrays [["n"; "-"]] (set_results [r; r] empty_world) in
  exists w1 w2,
    WithLabel (sharedGen 0) "x" None w = Ok (Some 0%nat) w1
    /\ labels_at w1 0 = Some ["n"; "x"]
    /\ WithLabel (sharedGen 1) "y" None w1 = Ok (Some 1%nat) w2
    /\ labels_at w2 1 = Some ["n"; "y"]
    /\ labels_at w2 0 = Some ["n"; "y"].
Proof.
  intros shared r w.
  destruct (WithLabel_overwrites_through_shared_array
              (sharedGen 0) (sharedGen 1) 0 1 "x" "y" None w r r)
    as (w1 & w2 & H1 & H2 & H3 & H4 & H5).
  - intros w0 r0 E. unfold sharedGen. rewrite E. reflexivity.
  - intros w0 r0 E. unfold sharedGen. rewrite E. reflexivity.
  - discriminate.
  - reflexivity.
  - reflexivity.
  - reflexivity.
  - split; [cbn; lia|]. right. exists 0%nat, ["n"; "-"].
    repeat split; cbn; lia.
  - cbn. lia.
  - exists w1, w2. repeat split; assumption.
Defined.

Lemma and_sieve_rejects (prev sieve : iface -> res bool) (v : iface) :
  and_sieve prev sieve v = Val false <->
  prev v = Val false \/ (prev v = Val true /\ sieve v = Val false).
Proof.
  unfold and_sieve, res_bind. destruct (prev v) as [[]|]; split.
  - intros H. right. split; [reflexivity|exact H].
  - intros [H|[_ H]]; [discriminate|exact H].
  - intros _. left. reflexivity.
  - reflexivity.
  - discriminate.
  - intros [H|[H _]]; discriminate.
Qed.

Lemma and_sieve_panics (prev sieve : iface -> res bool) (v : iface)
    (msg : string) :
  and_sieve prev sieve v = Err msg <->
  prev v = Err msg \/ (prev v = Val true /\ sieve v = Err msg).
Proof.
  unfold and_sieve, res_bind. destruct (prev v) as [[]|]; split.
  - intros H. right. split; [reflexivity|exact H].
  - intros [H|[_ H]]; [discriminate|exact H].
  - discriminate.
  - intros [H|[H _]]; discriminate.
  - intros H. left. exact H.
  - intros [H|[H _]]; [exact H|discriminate].
Qed.

(** X9: the sieve [SuchThat] leaves in a result whose sieve was [prev]
    asks [prev] first and the new predicate only for values [prev]
    accepts: it rejects a value when [prev] rejects it, whatever the new
    predicate would do, or when [prev] accepts it and the new predicate
    rejects it; it panics only when [prev] panics, or [prev] accepts and
    the new predicate panics. *)
Theorem SuchThat_sieve_short_circuits (g : Gen) (sieve : iface -> res bool)
    (genParams : ptr) (a : nat) (w w1 : World) (r : GenResult.t)
    (prev : iface -> res bool) :
  g genParams w = Ok (Some a) w1 ->
  results w1 !! a = Some r ->
  GenResult.Sieve r = Some prev ->
  exists stacked,
    returned (SuchThat_gen g sieve genParams w)
    = Some (GenResult.with_Sieve (Some stacked) r)
    /\ forall v,
        (stacked v = Val false <->
         prev v = Val false \/ (prev v = Val true /\ sieve v = Val false))
        /\ (forall msg,
               stacked v = Err msg <->
               prev v = Err msg \/ (prev v = Val true /\ sieve v = Err msg)).
Proof.
  intros Hg Hr Hprev. exists (and_sieve prev sieve). split.
  - rewrite (SuchThat_gen_run g genParams a w w1 r Hg Hr sieve).
    cbn [returned]. rewrite (lookup_after_store a w1 r _ Hr).
    rewrite Hprev. reflexivity.
  - intros v. split.
    + apply and_sieve_rejects.
    + intros msg. apply and_sieve_panics.
Qed.

Lemma SuchThat_sieve_short_circuits_witness :
  let never : iface -> res bool := fun _ => Val false in
  let g := constGen (VInt 1) TInt [] (Some never) NoShrinker in
  let crash : iface -> res bool := fun _ => Err "boom" in
  exists stacked,
    returned (SuchThat_gen g crash (Some 0%nat)
                (world_with_source (fun _ => 0)))
    = Some (GenResult.mk (mkSlice (Some 0%nat) 0 0 0) NoShrinker (Some TInt)
                         (VInt 1) (Some stacked))
    /\ stacked (VInt 1) = Val false.
Proof.
  intros never g crash.
  destruct (SuchThat_sieve_short_circuits g crash (Some 0%nat) 0
              (world_with_source (fun _ => 0)) _ _ never
              eq_refl eq_refl eq_refl) as (stacked & Hret & Hs).
  exists stacked. split; [exact Hret|].
  apply (proj1 (Hs (VInt 1))). left. reflexivity.
Defined.

(** ** Panics of the base generator *)

(** X10: a panic of the base generator, and a nil result returned by it,
    make every generator derived from it panic at once -- with the base
    generator's message, or with a nil dereference -- in the state the base
    generator left: nothing is written and no result is constructed. *)
Theorem base_panic_or_nil_result_propagates (g : Gen) (genParams : ptr)
    (w w1 : World) (msg : string) :
  g genParams w = Panic msg w1
  \/ (g genParams w = Ok None w1 /\ msg = nil_dereference) ->
  (forall label, WithLabel g label genParams w = Panic msg w1)
  /\ (forall sieve, SuchThat_gen g sieve genParams w = Panic msg w1)
  /\ (forall shrinker, WithShrinker g shrinker genParams w = Panic msg w1)
  /\ (forall mapperVal out0,
         Map_gen g mapperVal out0 genParams w = Panic msg w1)
  /\ (forall f resultType,
         FlatMap g f resultType genParams w = Panic msg w1)
  /\ (forall post, CombineGens (g :: post) genParams w = Panic msg w1).
Proof.
  intros [Hg|[Hg ->]];
    repeat split; intros;
    unfold WithLabel, SuchThat_gen, WithShrinker, Map_gen, FlatMap,
      CombineGens; cbn [CombineGens_loop]; unfold bind; rewrite Hg;
    reflexivity.
Qed.

Lemma base_panic_or_nil_result_propagates_witness :
  let crash : Gen := fun _ w => Panic "boom" w in
  let absent : Gen := fun _ w => Ok None w in
  WithLabel crash "x" None empty_world = Panic "boom" empty_world
  /\ CombineGens [absent; crash] None empty_world
     = Panic nil_dereference empty_world.
Proof.
  intros crash absent. split.
  - apply (proj1 (base_panic_or_nil_result_propagates crash None empty_world
                    empty_world "boom" (or_introl eq_refl))).
  - apply (base_panic_or_nil_result_propagates absent None empty_world
             empty_world nil_dereference
             (or_intror (conj eq_refl eq_refl))).
Defined.

(** X11: constructing [g.SuchThat(f)] or [g.Map(f)] with a function of one
    parameter runs the base generator once on default parameters, so a
    base generator that panics there makes the construction panic with
    its message, and one whose result declares no type makes it panic with
    a nil dereference, however well formed [f] is; [Sample] likewise
    passes on the panic of the generator. *)
Theorem probe_failure_reaches_the_constructor (g : Gen) (p : ptr)
    (w w0 w1 : World) (msg : string) :
  DefaultGenParameters w = Ok p w0 ->
  g p w0 = Panic msg w1
  \/ (exists result r,
         g p w0 = Ok result w1 /\ load_result result w1 = Ok r w1
         /\ GenResult.ResultType r = None /\ msg = nil_dereference) ->
  (forall fn in0,
      In fn = [in0] ->
      SuchThat g (Fn fn) w = Panic msg w1 /\ Map g (Fn fn) w = Panic msg w1)
  /\ (g p w0 = Panic msg w1 -> Sample g w = Panic msg w1).
Proof.
  intros Hp Hg. split.
  - intros fn in0 Hin.
    assert (Hprobe : probe_ResultType g w = Panic msg w1
                     \/ (probe_ResultType g w = Ok None w1
                         /\ msg = nil_dereference)).
    { unfold probe_ResultType, bind. rewrite Hp.
      destruct Hg as [Hg|(result & r & Hg & Hr & Ht & ->)]; rewrite Hg.
      - left. reflexivity.
      - right. rewrite Hr, Ht. split; reflexivity. }
    unfold SuchThat, Map, bind. rewrite Hin.
    destruct Hprobe as [->|[-> ->]]; split; reflexivity.
  - intros Hpanic. unfold Sample, bind. rewrite Hp, Hpanic. reflexivity.
Qed.

Lemma probe_failure_reaches_the_constructor_witness :
  let crash : Gen := fun _ w => Panic "boom" w in
  let positive := mkFunc [TInt] [TBool] (fun _ => Val [VBool true]) in
  exists w1,
    SuchThat crash (Fn positive) empty_world = Panic "boom" w1
    /\ Sample crash empty_world = Panic "boom" w1.
Proof.
  intros crash positive.
  pose (w0 := world_of (DefaultGenParameters empty_world)).
  destruct (probe_failure_reaches_the_constructor crash (Some 0%nat)
              empty_world w0 w0 "boom" eq_refl (or_introl eq_refl))
    as (Hc & Hs).
  exists w0. split.
  - exact (proj1 (Hc positive TInt eq_refl)).
  - exact (Hs eq_refl).
Defined.

(** ** More on CombineGens *)

(** X12: if the generators before some generator of the list all succeed
    and that generator panics, or retrieving its value panics (its sieve
    does), [CombineGens] panics with the same message in the state reached
    there: the generators after it are not invoked and no result is
    constructed. *)
Theorem CombineGens_panic_propagates (pre post : list Gen) (gk : Gen)
    (genParams : ptr) (w w1 w2 : World) (rs : list GenResult.t)
    (vs : list iface) (msg : string) :
  invoke_in_order genParams pre w = Ok rs w1 ->
  Forall2 succeeded rs vs ->
  gk genParams w1 = Panic msg w2
  \/ (exists result r,
         gk genParams w1 = Ok result w2 /\ load_result result w2 = Ok r w2
         /\ Retrieve r = Err msg) ->
  CombineGens (pre ++ gk :: post) genParams w = Panic msg w2.
Proof.
  intros Hrun Hok Hk.
  destruct (labels_read_in_order_exists _ _ _ _ _ Hrun) as (ls & Hls).
  destruct (CombineGens_run_prefix pre (gk :: post) genParams w w1 rs vs ls
              Hrun Hls Hok) as (c & _ & Hloop).
  unfold CombineGens, bind. rewrite Hloop. cbn [CombineGens_loop].
  unfold bind at 1.
  destruct Hk as [Hg|(result & r & Hg & Hr & Hv)]; rewrite Hg;
    [reflexivity|].
  unfold bind at 1. rewrite Hr. unfold bind at 1, append_labels.
  unfold bind at 1. rewrite Hv. reflexivity.
Qed.

Lemma CombineGens_panic_propagates_witness :
  let gA := constGen (VInt 1) TInt ["a"] None NoShrinker in
  let crash : Gen := fun _ w => Panic "boom" w in
  exists w2,
    CombineGens ([gA] ++ crash :: [gA]) (Some 0%nat)
      (world_with_source (fun _ => 0)) = Panic "boom" w2
    /\ length (results w2) = 1%nat.
Proof.
  intros gA crash.
  pose (w1 := world_of (gA (Some 0%nat) (world_with_source (fun _ => 0)))).
  exists w1. split; [|reflexivity].
  apply (CombineGens_panic_propagates [gA] [gA] crash (Some 0%nat)
           (world_with_source (fun _ => 0)) w1 w1
           [GenResult.mk (mkSlice (Some 0%nat) 0 1 1) NoShrinker (Some TInt)
                         (VInt 1) None]
           [VInt 1] "boom").
  - reflexivity.
  - constructor; [exact eq_refl|]. constructor.
  - left. reflexivity.
Defined.

Lemma CombineGens_sieve_loop_overrun
    (sieves : list (option (iface -> res bool))) (xs : list iface) :
  forall i : nat,
    (i <= length sieves)%nat ->
    (length sieves < i + length xs)%nat ->
    (forall j x sieve,
        xs !! j = Some x -> sieves !! (i + j)%nat = Some (Some sieve) ->
        sieve x = Val true) ->
    CombineGens_sieve_loop sieves i xs
    = Err "runtime error: index out of range".
Proof.
  induction xs as [|x rest IH]; intros i Hi Hlen Hacc.
  - cbn in Hlen. lia.
  - cbn [length] in Hlen. cbn [CombineGens_sieve_loop].
    destruct (sieves !! i) as [slot|] eqn:Hslot; [|reflexivity].
    pose proof (lookup_lt_Some _ _ _ Hslot) as Hlt.
    assert (Hrest : CombineGens_sieve_loop sieves (S i) rest
                    = Err "runtime error: index out of range").
    { apply IH; [lia|lia|]. intros j y sieve Hy Hs.
      apply (Hacc (S j) y sieve Hy).
      replace (i + S j)%nat with (S i + j)%nat by lia. exact Hs. }
    destruct slot as [sieve0|]; [|exact Hrest].
    rewrite (Hacc 0%nat x sieve0 eq_refl)
      by (rewrite Nat.add_0_r; exact Hslot).
    exact Hrest.
Qed.

(** X13: the sieve of a combined result panics on a value that is not a
    slice, and on a slice with more components than there were generators
    whose components are all accepted: it never accepts such values. *)
Theorem CombineGens_sieve_panics_on_misshapen
    (sieves : list (option (iface -> res bool))) :
  (forall v, (forall xs, v <> VSlice xs) ->
             exists msg, CombineGens_sieve sieves v = Err msg)
  /\ (forall xs,
         (length sieves < length xs)%nat ->
         (forall i x sieve,
             xs !! i = Some x -> sieves !! i = Some (Some sieve) ->
             sieve x = Val true) ->
         CombineGens_sieve sieves (VSlice xs)
         = Err "runtime error: index out of range").
Proof.
  split.
  - intros v Hv. destruct v; cbn; eauto. now elim (Hv vs).
  - intros xs Hlen Hacc. cbn [CombineGens_sieve].
    apply CombineGens_sieve_loop_overrun; [lia|lia|exact Hacc].
Qed.

Lemma CombineGens_sieve_panics_on_misshapen_witness :
  CombineGens_sieve [None] (VSlice [VInt 1; VInt 2])
  = Err "runtime error: index out of range".
Proof.
  apply (proj2 (CombineGens_sieve_panics_on_misshapen [None])).
  - cbn. lia.
  - intros i x sieve Hx Hs. destruct i as [|i]; discriminate Hs.
Defined.

Lemma CombineGens_sieve_loop_rejects
    (sieves : list (option (iface -> res bool))) (xs : list iface) :
  forall (k i : nat) (x : iface) (sieve : iface -> res bool),
    xs !! i = Some x ->
    sieves !! (k + i)%nat = Some (Some sieve) ->
    sieve x = Val false ->
    (forall j y earlier,
        (j < i)%nat -> xs !! j = Some y ->
        sieves !! (k + j)%nat = Some (Some earlier) ->
        earlier y = Val true) ->
    CombineGens_sieve_loop sieves k xs = Val false.
Proof.
  induction xs as [|y rest IH]; intros k i x sieve Hx Hs Hrej Hacc.
  - discriminate Hx.
  - cbn [CombineGens_sieve_loop]. destruct i as [|i].
    + cbn in Hx. injection Hx as ->. rewrite Nat.add_0_r in Hs.
      rewrite Hs. unfold res_bind. rewrite Hrej. reflexivity.
    + pose proof (lookup_lt_Some _ _ _ Hs) as Hlt.
      destruct (lookup_lt_is_Some_2 sieves k ltac:(lia)) as [slot Hslot].
      rewrite Hslot.
      assert (Hrest : CombineGens_sieve_loop sieves (S k) rest = Val false).
      { apply (IH (S k) i x sieve).
        - exact Hx.
        - replace (S k + i)%nat with (k + S i)%nat by lia. exact Hs.
        - exact Hrej.
        - intros j z earlier Hj Hz He. apply (Hacc (S j) z earlier).
          + lia.
          + exact Hz.
          + replace (k + S j)%nat with (S k + j)%nat by lia. exact He. }
      destruct slot as [sieve0|]; [|exact Hrest].
      unfold res_bind.
      rewrite (Hacc 0%nat y sieve0 ltac:(lia) eq_refl)
        by (rewrite Nat.add_0_r; exact Hslot).
      exact Hrest.
Qed.

(** X14: the sieve of a combined result returns false at the first
    component whose sieve rejects it, provided the sieves before it accept
    their components; the components after it are not looked at, whether
    their sieves would reject, panic, or not exist. *)
Theorem CombineGens_sieve_first_rejection
    (sieves : list (option (iface -> res bool))) (xs : list iface)
    (i : nat) (x : iface) (sieve : iface -> res bool) :
  xs !! i = Some x ->
  sieves !! i = Some (Some sieve) ->
  sieve x = Val false ->
  (forall j y earlier,
      (j < i)%nat -> xs !! j = Some y ->
      sieves !! j = Some (Some earlier) -> earlier y = Val true) ->
  CombineGens_sieve sieves (VSlice xs) = Val false.
Proof.
  intros Hx Hs Hrej Hacc. cbn [CombineGens_sieve].
  exact (CombineGens_sieve_loop_rejects sieves xs 0 i x sieve Hx Hs Hrej
           Hacc).
Qed.

Lemma CombineGens_sieve_first_rejection_witness :
  CombineGens_sieve [None; Some (fun _ => Val false);
                     Some (fun _ => Err "boom")]
    (VSlice [VInt 1; VInt 2; VInt 3; VInt 4]) = Val false.
Proof.
  apply (CombineGens_sieve_first_rejection _ _ 1 (VInt 2) (fun _ => Val false));
    try reflexivity.
  intros j y earlier Hj Hy He.
  destruct j as [|j]; [discriminate He|lia].
Defined.

Lemma CombineGens_loop_shape (genParams : ptr) (gens : list Gen) :
  forall (i : nat) (st : combine_locals) (w w' : World)
         (o : ptr + combine_locals),
    CombineGens_loop genParams i gens st w = Ok o w' ->
    match o with
    | inl a =>
        exists lbls,
          returned (Ok a w')
          = Some (GenResult.mk lbls NoShrinker (Some (TSlice TInterface))
                               VNil None)
    | inr st' => length (values st') = length (values st)
    end.
Proof.
  induction gens as [|gen rest IH]; intros i st w w' o.
  - cbn. intros [= <- <-]. reflexivity.
  - cbn [CombineGens_loop]. unfold bind at 1.
    destruct (gen genParams w) as [result wa|]; [|discriminate].
    unfold bind at 1.
    destruct (load_result result wa) as [r wa'|]; [|discriminate].
    unfold bind at 1.
    destruct (Retrieve r) as [[v ok]|]; cbn [lift ret panic];
      [|discriminate].
    destruct ok; cbn [negb].
    + intros Hloop. apply IH in Hloop. destruct o as [a|st'];
        [exact Hloop|].
      rewrite Hloop. cbn [values]. apply length_insert.
    + unfold bind, new_result, ret. intros [= <- <-].
      exists (GenResult.Labels r). cbn [returned].
      rewrite lookup_new_result. reflexivity.
Qed.

(** X15: whatever [CombineGens] returns declares the type [[]interface{}]
    and has a shrinker; it is either a failure result (no value, no sieve,
    the no-op shrinker) or a result whose value is a slice with exactly one
    component per generator and which has a sieve. *)
Theorem CombineGens_result_shape (gens : list Gen) (genParams a : ptr)
    (w w' : World) :
  CombineGens gens genParams w = Ok a w' ->
  exists r,
    returned (Ok a w') = Some r
    /\ GenResult.ResultType r = Some (TSlice TInterface)
    /\ GenResult.Shrinker r <> None
    /\ ((GenResult.result r = VNil /\ GenResult.Sieve r = None
         /\ GenResult.Shrinker r = NoShrinker)
        \/ (exists vs, GenResult.result r = VSlice vs
                       /\ length vs = length gens
                       /\ GenResult.Sieve r <> None)).
Proof.
  unfold CombineGens, bind.
  destruct (CombineGens_loop genParams 0 gens _ w) as [o w1|] eqn:Hloop;
    [|discriminate].
  apply CombineGens_loop_shape in Hloop. destruct o as [failed|st].
  - unfold ret. intros [= <- <-]. destruct Hloop as (lbls & Hret).
    eexists. split; [exact Hret|]. cbn.
    split; [reflexivity|]. split; [discriminate|]. left. auto.
  - cbn [values] in Hloop. rewrite length_replicate in Hloop.
    unfold new_result. intros [= <- <-]. eexists. split.
    + cbn [returned]. apply (lookup_new_result _ (set_arrays _ w1)).
    + cbn. split; [reflexivity|]. split; [discriminate|]. right.
      exists (values st). split; [reflexivity|]. split; [exact Hloop|].
      discriminate.
Qed.

Lemma CombineGens_result_shape_witness :
  let gA := constGen (VInt 1) TInt ["a"] None NoShrinker in
  exists r,
    returned (CombineGens [gA; failGen TInt ["b"]] (Some 0%nat)
                (world_with_source (fun _ => 0))) = Some r
    /\ GenResult.ResultType r = Some (TSlice TInterface).
Proof.
  intros gA.
  destruct (CombineGens_result_shape [gA; failGen TInt ["b"]] (Some 0%nat)
              _ (world_with_source (fun _ => 0)) _ eq_refl)
    as (r & Hret & Ht & _).
  exists r. split; [exact Hret|exact Ht].
Defined.

(** ** Construction with a well-formed function, and Map after Map *)

Lemma rtype_eqb_refl (t : rtype) : rtype_eqb t t = true.
Proof.
  revert t.
  fix IH 1. intros [| | | | |elem|ins outs]; cbn; try reflexivity.
  - apply IH.
  - assert (Hall : forall l : list rtype,
               (fix all2 (xs ys : list rtype) {struct xs} : bool :=
                  match xs, ys with
                  | [], [] => true
                  | x :: xs', y :: ys' => rtype_eqb x y && all2 xs' ys'
                  | _, _ => false
                  end) l l = true).
    { induction l as [|x l IHl]; [reflexivity|].
      rewrite IH, IHl. reflexivity. }
    rewrite !Hall. reflexivity.
Qed.

(** X16: a function of one parameter and one result whose parameter type is
    the type the probed result declares, or [interface{}], is accepted:
    [Map] returns its generator, and so does [SuchThat] when the result
    type is a bool, both in the state the one probe left. *)
Theorem construction_accepts_matching_function (g : Gen) (fn : Func)
    (in0 out0 t : rtype) (w w1 : World) :
  In fn = [in0] ->
  Out fn = [out0] ->
  probe_ResultType g w = Ok (Some t) w1 ->
  in0 = t \/ in0 = TInterface ->
  Map g (Fn fn) w = Ok (Map_gen g fn out0) w1
  /\ (kind_of out0 = KBool ->
      SuchThat g (Fn fn) w = Ok (SuchThat_gen g (reflect_sieve fn)) w1).
Proof.
  intros Hin Hout Hprobe Hty.
  assert (Ha : AssignableTo t in0 = true).
  { unfold AssignableTo. destruct Hty as [->| ->].
    - rewrite rtype_eqb_refl. reflexivity.
    - apply orb_true_r. }
  split.
  - unfold Map, bind. rewrite Hin, Hprobe, Ha, Hout. reflexivity.
  - intros Hk. unfold SuchThat, bind.
    rewrite Hin, Hprobe, Ha, Hout, Hk. reflexivity.
Qed.

Lemma construction_accepts_matching_function_witness :
  let g := constGen (VInt 1) TInt [] None NoShrinker in
  let anything := mkFunc [TInterface] [TBool] (fun _ => Val [VBool true]) in
  exists w1,
    SuchThat g (Fn anything) empty_world
    = Ok (SuchThat_gen g (reflect_sieve anything)) w1.
Proof.
  intros g anything.
  pose (w1 := world_of (probe_ResultType g empty_world)).
  exists w1.
  exact (proj2 (construction_accepts_matching_function g anything TInterface
                  TBool TInt empty_world w1 eq_refl eq_refl eq_refl
                  (or_intror eq_refl)) eq_refl).
Defined.

(** X17: [g.Map(f).Map(h)] on a successful base generation: it constructs
    two results on top of the state the base generator left, first the one
    carrying [f(x)], then the one it returns, which carries [h(f(x))], the
    return type of [h], the labels of the base result, no sieve and the
    no-op shrinker; the base result is not written. *)
Theorem Map_after_Map (g : Gen) (f h : Func) (outf outh : rtype)
    (genParams result : ptr) (w w1 : World) (r : GenResult.t)
    (x y z : iface) (ys zs : list iface) :
  g genParams w = Ok result w1 ->
  load_result result w1 = Ok r w1 ->
  RetrieveAsValue r = Val (x, true) ->
  Call f [x] = Val (y :: ys) ->
  let middle :=
    GenResult.mk (GenResult.Labels r) NoShrinker (Some outf) y None in
  RetrieveAsValue middle = Val (y, true) ->
  Call h [y] = Val (z :: zs) ->
  Map_gen (Map_gen g f outf) h outh genParams w
  = Ok (Some (S (length (results w1))))
       (set_results
          (results w1 ++
             [middle;
              GenResult.mk (GenResult.Labels r) NoShrinker (Some outh) z
                           None]) w1).
Proof.
  intros Hg Hr Hx Hy middle Hm Hz.
  assert (Hinner : Map_gen g f outf genParams w
                   = Ok (Some (length (results w1)))
                        (set_results (results w1 ++ [middle]) w1)).
  { unfold Map_gen, bind. rewrite Hg, Hr, Hx. cbn. unfold bind.
    rewrite Hy. reflexivity. }
  unfold Map_gen at 1. unfold bind at 1. rewrite Hinner.
  unfold bind at 1.
  rewrite (load_result_at _ _ middle (lookup_new_result middle w1)).
  unfold bind at 1. rewrite Hm. cbn [lift ret]. unfold bind.
  rewrite Hz. cbn [lift ret]. unfold new_result. cbn.
  rewrite length_app, <- app_assoc. cbn. rewrite Nat.add_1_r. reflexivity.
Qed.

Lemma Map_after_Map_witness :
  let g := constGen (VInt 3) TInt ["n"] None NoShrinker in
  let double :=
    mkFunc [TInt] [TInt]
      (fun args => match args with
                   | [VInt z] => Val [VInt (2 * z)]
                   | _ => Err "not an int"
                   end) in
  let is_big :=
    mkFunc [TInt] [TBool]
      (fun args => match args with
                   | [VInt z] => Val [VBool (5 <? z)]
                   | _ => Err "not an int"
                   end) in
  returned (Map_gen (Map_gen g double TInt) is_big TBool (Some 0%nat)
              (world_with_source (fun _ => 0)))
  = Some (GenResult.mk (mkSlice (Some 0%nat) 0 1 1) NoShrinker (Some TBool)
                       (VBool true) None)
  /\ returned_labels (Map_gen (Map_gen g double TInt) is_big TBool
                        (Some 0%nat) (world_with_source (fun _ => 0)))
     = Some ["n"].
Proof.
  intros g double is_big.
  rewrite (Map_after_Map g double is_big TInt TBool (Some 0%nat)
             (Some 0%nat) (world_with_source (fun _ => 0)) _ _
             (VInt 3) (VInt 6) (VBool true) [] []
             eq_refl eq_refl eq_refl eq_refl eq_refl eq_refl).
  split; reflexivity.
Defined.

(** ** Drawing through invalid pointers *)

(** X18: when the parameters pointer is nil or dangling, or the parameters
    object holds no valid source, [NextBool], [NextInt64] and [NextUint64]
    panic with a nil dereference before anything is drawn: the state is
    unchanged. *)
Theorem draws_without_source_panic (w : World) (p : ptr) :
  (forall a r, ~ draws_from w p a r) ->
  NextBool p w = Panic nil_dereference w
  /\ NextInt64 p w = Panic nil_dereference w
  /\ NextUint64 p w = Panic nil_dereference w.
Proof.
  intros Hno.
  unfold NextBool, NextInt64, NextUint64, bind, load_parameters.
  destruct p as [ap|]; [|repeat split; reflexivity].
  destruct (parameters w !! ap) as [gp|] eqn:Hp;
    [|repeat split; reflexivity].
  unfold Int63. destruct (Rng gp) as [a|] eqn:Hr;
    [|repeat split; reflexivity].
  destruct (rands w !! a) as [r|] eqn:Ha; [|repeat split; reflexivity].
  elim (Hno a r). exists ap, gp. repeat split; assumption.
Qed.

Lemma draws_without_source_panic_witness :
  NextInt64 None empty_world = Panic nil_dereference empty_world.
Proof.
  apply (draws_without_source_panic empty_world None).
  intros a r (ap & gp & E & _). discriminate E.
Defined.
